(** * teams/app.py: the data-access, projection and ingestion core

    A shallow embedding of the Flask/SQLAlchemy module [teams/app.py]:
    the three mapped classes, the query functions, the JSON projection
    functions and [add_post_json].

    Python values are dynamically typed, so a column, a document field
    and the value a function returns are all of the one type [value].
    Exceptions and the mutable state the code threads (the session of
    pending objects, and a log of the evaluations that the properties
    below count) are modelled by one state-and-exception monad [M]. *)

From Stdlib Require Import ZArith String Ascii List Bool Lia DecimalString.
From stdpp Require Import base option list strings gmap.

Open Scope Z_scope.

#[local] Set Warnings "-register-all".

(** ** Python values *)

Inductive value : Type :=
| VNone
| VBool (b : bool)
| VInt (z : Z)
| VStr (s : string)
| VList (l : list value)
| VDict (d : list (string * value)).

(** Exceptions the core can raise. *)
Inductive exn : Type :=
| KeyError (k : string)
| TypeError
| AttributeError.

Inductive result (A : Type) : Type :=
| Ok (a : A)
| Raise (e : exn).
Arguments Ok {A} a.
Arguments Raise {A} e.

(** [x == s] for a [str] [s]: true only for an equal [str]. *)
Definition str_eq (x : value) (s : string) : bool :=
  match x with
  | VStr s' => String.eqb s' s
  | _ => false
  end.

(** ** Dictionaries: insertion-ordered, as Python's *)

Fixpoint dict_get (k : string) (d : list (string * value)) : option value :=
  match d with
  | [] => None
  | (k', v) :: d' => if String.eqb k' k then Some v else dict_get k d'
  end.

(** [d[k] = v]: replaces in place, or appends a new key. *)
Fixpoint dict_set (k : string) (v : value) (d : list (string * value))
  : list (string * value) :=
  match d with
  | [] => [(k, v)]
  | (k', v') :: d' =>
      if String.eqb k' k then (k, v) :: d' else (k', v') :: dict_set k v d'
  end.

(** ** The state-and-exception monad *)

Definition M (S A : Type) : Type := S → result A * S.

Definition ret {S A} (a : A) : M S A := λ s, (Ok a, s).

Definition bind {S A B} (m : M S A) (f : A → M S B) : M S B :=
  λ s, match m s with
       | (Ok a, s') => f a s'
       | (Raise e, s') => (Raise e, s')
       end.

Definition raise {S A} (e : exn) : M S A := λ s, (Raise e, s).

Definition lift {S A} (r : result A) : M S A := λ s, (r, s).

Notation "'let*' x ':=' m 'in' k" := (bind m (λ x, k))
  (at level 10, x name, m at level 100, k at level 200).
Notation "'do*' m 'in' k" := (bind m (λ _, k))
  (at level 10, m at level 100, k at level 200).

(** A [for] loop over [xs] that updates the loop's local variables
    [acc]. *)
Fixpoint for_each {S A B} (xs : list A) (body : B → A → M S B) (acc : B)
  : M S B :=
  match xs with
  | [] => ret acc
  | x :: xs' => let* acc' := body acc x in for_each xs' body acc'
  end.

(** ** The mapped classes, as persisted rows *)

Record Team : Type := mkTeam {
  team_id : Z;
  team_name : value }.

Record User : Type := mkUser {
  user_id : Z;
  user_name : value;
  user_email : value;
  user_team_id : option Z;
  user_company_id : option Z }.

Record Company : Type := mkCompany {
  company_id : Z;
  company_name : value }.

(** The three tables, each in the order the store yields its rows. *)
Record Store : Type := mkStore {
  teams : list Team;
  users : list User;
  companies : list Company }.

(** [team.members]: the relationship over [users.team_id]. *)
Definition members (db : Store) (team : Team) : list User :=
  filter (λ u, user_team_id u = Some (team_id team)) (users db).

(** [user.company]: the backref over [users.company_id]; [None] when the
    key is NULL or names no row. *)
Definition company (db : Store) (user : User) : option Company :=
  match user_company_id user with
  | Some cid => snd <$> list_find (λ c, company_id c = cid) (companies db)
  | None => None
  end.

(** The evaluations that are counted. *)
Inductive event : Type :=
| EvNameCmp (uid : Z)    (* [member.company.name == companyname] *)
| EvDumps.               (* a call of [json.dumps] *)

Definition Log : Type := list event.

Definition emit (e : event) : M Log unit := λ l, (Ok tt, l ++ [e]).

(** ** Query layer *)

Definition get_all_teams (db : Store) : list Team := teams db.

Definition get_team_by_name (db : Store) (name : string) : list Team :=
  filter (λ t, str_eq (team_name t) name = true) (teams db).

(** [team in filtered_teams]: the mapped classes define no [__eq__], so
    membership is object identity, and the session's identity map holds
    one object per primary key. *)
Definition team_in (team : Team) (filtered_teams : list Team) : bool :=
  existsb (λ t, team_id t =? team_id team) filtered_teams.

(** [member.company.name]: an [AttributeError] when the member has no
    company. *)
Definition member_company_name (db : Store) (member : User) : M Log value :=
  match company db member with
  | Some c => ret (company_name c)
  | None => raise AttributeError
  end.

Definition get_team_by_company (db : Store) (companyname : string)
  : M Log (list Team) :=
  for_each (get_all_teams db) (λ filtered_teams team,
    for_each (members db team) (λ filtered_teams member,
      let* n := member_company_name db member in
      do* emit (EvNameCmp (user_id member)) in
      if str_eq n companyname && negb (team_in team filtered_teams)
      then ret (filtered_teams ++ [team])
      else ret filtered_teams) filtered_teams) [].

(** The routes compose a query with the projection below; see
    [team_by_name] and [teams_by_company]. *)

(** ** Projection layer *)

Definition dquote : string := String (ascii_of_nat 34) EmptyString.

Section Projection.

(** [ujson]'s rendering of the contents of a [str] (its escapes), which
    is the library's and not this module's. *)
Variable escape : string → string.

Definition quote (s : string) : string := dquote +:+ escape s +:+ dquote.

(** [json.dumps]: compact output, keys in insertion order. *)
Fixpoint dumps (v : value) : string :=
  match v with
  | VNone => "null"
  | VBool b => if b then "true" else "false"
  | VInt z => NilZero.string_of_int (Z.to_int z)
  | VStr s => quote s
  | VList l => "[" +:+ String.concat "," (map dumps l) +:+ "]"
  | VDict d =>
      "{" +:+ String.concat ","
                (map (λ kv, quote (fst kv) +:+ ":" +:+ dumps (snd kv)) d)
          +:+ "}"
  end.

Definition json_dumps (v : value) : M Log value :=
  do* emit EvDumps in ret (VStr (dumps v)).

(** [company] is [None] when the user has no company, and then
    [company.name] raises. *)
Definition company_to_json (company : option Company) (dump : bool)
  : M Log value :=
  match company with
  | None => raise AttributeError
  | Some c =>
      let company_dict := [] in
      let company_dict := dict_set "name" (company_name c) company_dict in
      let company_dict := dict_set "id" (VInt (company_id c)) company_dict in
      if dump then json_dumps (VDict company_dict)
      else ret (VDict company_dict)
  end.

Definition users_to_json (db : Store) (users : list User) (dump : bool)
  : M Log value :=
  let* user_json :=
    for_each users (λ user_json user,
      let user_dict := [] in
      let user_dict := dict_set "id" (VInt (user_id user)) user_dict in
      let user_dict := dict_set "name" (user_name user) user_dict in
      let* c := company_to_json (company db user) false in
      let user_dict := dict_set "company" c user_dict in
      let user_dict := dict_set "email" (user_email user) user_dict in
      ret (user_json ++ [VDict user_dict])) [] in
  if dump then json_dumps (VList user_json) else ret (VList user_json).

Definition teams_to_json (db : Store) (teams : list Team) : M Log value :=
  let* team_json :=
    for_each teams (λ team_json team,
      let team_dict := [] in
      let team_dict := dict_set "id" (VInt (team_id team)) team_dict in
      let team_dict := dict_set "name" (team_name team) team_dict in
      let* ms := users_to_json db (members db team) false in
      let team_dict := dict_set "members" ms team_dict in
      ret (team_json ++ [VDict team_dict])) [] in
  json_dumps (VList team_json).

(** The routes [/team/<teamname>] and [/company/<companyname>]. *)
Definition team_by_name (db : Store) (teamname : string) : M Log value :=
  let team := get_team_by_name db teamname in
  teams_to_json db team.

Definition teams_by_company (db : Store) (companyname : string)
  : M Log value :=
  let* teams := get_team_by_company db companyname in
  teams_to_json db teams.

End Projection.

(** ** Ingestion layer *)

(** Objects built by a constructor call and not yet flushed: no primary
    key, references to other objects instead of foreign keys, and the
    object's identity [obj]. *)
Record NewTeam : Type := mkNewTeam {
  nt_obj : nat;
  nt_name : value }.

Record NewCompany : Type := mkNewCompany {
  nc_obj : nat;
  nc_name : value }.

Record NewUser : Type := mkNewUser {
  nu_obj : nat;
  nu_name : value;
  nu_email : value;
  nu_company : NewCompany;
  nu_team : NewTeam }.

Inductive pending : Type :=
| PTeam (t : NewTeam)
| PCompany (c : NewCompany)
| PUser (u : NewUser).

(** [db.session] within a request, with the allocator of identities. *)
Record Session : Type := mkSession {
  next_obj : nat;
  staged : list pending }.

Definition new_obj : M Session nat :=
  λ s, (Ok (next_obj s), mkSession (S (next_obj s)) (staged s)).

Definition Team_new (name : value) : M Session NewTeam :=
  let* o := new_obj in ret (mkNewTeam o name).

Definition Company_new (name : value) : M Session NewCompany :=
  let* o := new_obj in ret (mkNewCompany o name).

Definition User_new (name email : value) (company : NewCompany)
    (team : NewTeam) : M Session NewUser :=
  let* o := new_obj in ret (mkNewUser o name email company team).

Definition session_add (p : pending) : M Session unit :=
  λ s, (Ok tt, mkSession (next_obj s) (staged s ++ [p])).

Definition session_add_all (ps : list pending) : M Session unit :=
  for_each ps (λ _ p, session_add p) tt.

(** [v[k]] for a [str] key [k]. *)
Definition getitem (v : value) (k : string) : result value :=
  match v with
  | VDict d =>
      match dict_get k d with
      | Some x => Ok x
      | None => Raise (KeyError k)
      end
  | _ => Raise TypeError
  end.

(** The items a [for] loop over [v] visits. *)
Definition iter (v : value) : result (list value) :=
  match v with
  | VList l => Ok l
  | VDict d => Ok (map (λ kv, VStr (fst kv)) d)
  | VStr s =>
      Ok (map (λ a, VStr (String a EmptyString)) (list_ascii_of_string s))
  | _ => Raise TypeError
  end.

(** [a == b] on two [Company] objects: the class defines no [__eq__], so
    this is [object]'s, identity. *)
Definition company_eq (a b : NewCompany) : bool :=
  Nat.eqb (nc_obj a) (nc_obj b).

(** [company in companies]. *)
Definition company_in (company : NewCompany) (companies : list NewCompany)
  : bool :=
  existsb (λ c, company_eq c company) companies.

(** The body of the loop of [add_post_json], on the loop's variables
    [companies] and [users]. *)
Definition add_member (team : NewTeam)
    (cu : list NewCompany * list NewUser) (member : value)
  : M Session (list NewCompany * list NewUser) :=
  let companies := fst cu in
  let users := snd cu in
  let* cname := lift (getitem member "company") in
  let* company := Company_new cname in
  let companies :=
    if negb (company_in company companies)
    then companies ++ [company] else companies in
  let* uname := lift (getitem member "name") in
  let* uemail := lift (getitem member "email") in
  let* user := User_new uname uemail company team in
  ret (companies, users ++ [user]).

Definition add_post_json (json_data : value) : M Session unit :=
  let companies := [] in
  let users := [] in
  let* name := lift (getitem json_data "name") in
  let* team := Team_new name in
  let* ms := lift (getitem json_data "members") in
  let* ms := lift (iter ms) in
  let* cu := for_each ms (add_member team) (companies, users) in
  do* session_add (PTeam team) in
  do* session_add_all (map PCompany (fst cu)) in
  session_add_all (map PUser (snd cu)).

(** [add_test_data], up to its [db.session.commit()]. *)
Definition add_test_data : M Session unit :=
  let* def_jam := Company_new (VStr "Def_Jam_Records") in
  let* ruthless := Company_new (VStr "Ruthless_Records") in
  let* nwa := Team_new (VStr "NWA") in
  let* gfunk := Team_new (VStr "GFUNK") in
  let users_to_commit := [] in
  let* u := User_new (VStr "Ice Cube") (VStr "icecube@gmail.com")
              ruthless nwa in
  let users_to_commit := users_to_commit ++ [u] in
  let* u := User_new (VStr "MC Ren") (VStr "ren@hotmail.com") ruthless nwa in
  let users_to_commit := users_to_commit ++ [u] in
  let* u := User_new (VStr "Warren G") (VStr "warren@gmail.com")
              def_jam gfunk in
  let users_to_commit := users_to_commit ++ [u] in
  let* u := User_new (VStr "Nate Dogg") (VStr "nate@gmail.com")
              def_jam gfunk in
  let users_to_commit := users_to_commit ++ [u] in
  do* session_add (PCompany def_jam) in
  do* session_add (PCompany ruthless) in
  do* session_add (PTeam nwa) in
  do* session_add (PTeam gfunk) in
  session_add_all (map PUser users_to_commit).

(** ** The store's side of persistence

    What [db.session.commit()] does is SQLAlchemy's and SQLite's, not
    this module's.  It is taken to be: the pending objects become rows,
    teams and companies before the users that refer to them and each
    class in the order its objects were added; a new row gets the
    primary key one above the largest in its table and comes last in
    the table's order; a reference becomes the primary key given to the
    object referred to. *)

Definition fresh_id (ids : list Z) : Z := 1 + foldr Z.max 0 ids.

Definition staged_teams (s : Session) : list NewTeam :=
  omap (λ p, match p with PTeam t => Some t | _ => None end) (staged s).
Definition staged_companies (s : Session) : list NewCompany :=
  omap (λ p, match p with PCompany c => Some c | _ => None end) (staged s).
Definition staged_users (s : Session) : list NewUser :=
  omap (λ p, match p with PUser u => Some u | _ => None end) (staged s).

Definition insert_team (acc : Store * gmap nat Z) (t : NewTeam)
  : Store * gmap nat Z :=
  let db := fst acc in
  let i := fresh_id (team_id <$> teams db) in
  (mkStore (teams db ++ [mkTeam i (nt_name t)]) (users db) (companies db),
   <[nt_obj t := i]> (snd acc)).

Definition insert_company (acc : Store * gmap nat Z) (c : NewCompany)
  : Store * gmap nat Z :=
  let db := fst acc in
  let i := fresh_id (company_id <$> companies db) in
  (mkStore (teams db) (users db) (companies db ++ [mkCompany i (nc_name c)]),
   <[nc_obj c := i]> (snd acc)).

Definition insert_user (team_pk company_pk : gmap nat Z) (db : Store)
    (u : NewUser) : Store :=
  let i := fresh_id (user_id <$> users db) in
  mkStore (teams db)
    (users db ++ [mkUser i (nu_name u) (nu_email u)
                    (team_pk !! nt_obj (nu_team u))
                    (company_pk !! nc_obj (nu_company u))])
    (companies db).

Definition commit (s : Session) (db : Store) : Store :=
  let t := foldl insert_team (db, ∅) (staged_teams s) in
  let c := foldl insert_company (fst t, ∅) (staged_companies s) in
  foldl (insert_user (snd t) (snd c)) (fst c) (staged_users s).

Definition empty_store : Store := mkStore [] [] [].

(** A request starts with nothing pending. *)
Definition new_session (n : nat) : Session := mkSession n [].

(** The store the module starts from: [add_test_data] on the empty
    schema. *)
Definition test_data : Store :=
  commit (snd (add_test_data (new_session 0))) empty_store.

(** ** Vocabulary of the specification *)

(** The data model's invariants: primary keys are unique, and every
    user has a team and a company among the persisted ones. *)
Definition db_wf (db : Store) : Prop :=
  NoDup (team_id <$> teams db) ∧
  NoDup (company_id <$> companies db) ∧
  Forall (λ u, Exists (λ t, user_team_id u = Some (team_id t)) (teams db))
         (users db) ∧
  Forall (λ u, Exists (λ c, user_company_id u = Some (company_id c))
                 (companies db))
         (users db).

#[global] Instance db_wf_dec (db : Store) : Decision (db_wf db).
Proof. unfold db_wf. apply _. Defined.

(** A team has at least one member whose company's name is [c]. *)
Definition has_member_of (db : Store) (c : string) (t : Team) : Prop :=
  ∃ m co, m ∈ members db t ∧ company db m = Some co
          ∧ company_name co = VStr c.

(** The same as a test: does [member]'s company bear the name [c]? *)
Definition member_matches (db : Store) (c : string) (member : User) : bool :=
  match company db member with
  | Some co => str_eq (company_name co) c
  | None => false
  end.

Definition qualifies (db : Store) (c : string) (t : Team) : bool :=
  existsb (member_matches db c) (members db t).

(** The comparisons a scan of every member of every team logs. *)
Definition all_comparisons (db : Store) (ts : list Team) : Log :=
  (λ m, EvNameCmp (user_id m)) <$> concat (members db <$> ts).

(** No persisted user's company has the name [c]. *)
Definition no_user_of (db : Store) (c : string) : Prop :=
  ∀ u co, u ∈ users db → company db u = Some co → company_name co ≠ VStr c.

(** The wire shapes of section 6, and the projections of section 4.2
    that produce them. *)
Definition company_document (c : Company) : value :=
  VDict [("name"%string, company_name c); ("id"%string, VInt (company_id c))].

Definition user_document (u : User) (c : Company) : value :=
  VDict [("id"%string, VInt (user_id u)); ("name"%string, user_name u);
         ("company"%string, company_document c);
         ("email"%string, user_email u)].

Definition team_document (t : Team) (ms : list value) : value :=
  VDict [("id"%string, VInt (team_id t)); ("name"%string, team_name t);
         ("members"%string, VList ms)].

Definition project_company (c : Company) : value := company_document c.

Definition project_user (db : Store) (u : User) : option value :=
  c ← company db u; Some (user_document u c).

Definition project_team (db : Store) (t : Team) : option value :=
  ms ← mapM (project_user db) (members db t); Some (team_document t ms).

(** The section 4.1 reading of the company query: per team, stop at the
    first qualifying member. *)
Fixpoint any_member_short (db : Store) (companyname : string)
    (ms : list User) : M Log bool :=
  match ms with
  | [] => ret false
  | member :: ms' =>
      let* n := member_company_name db member in
      do* emit (EvNameCmp (user_id member)) in
      if str_eq n companyname then ret true
      else any_member_short db companyname ms'
  end.

Definition get_team_by_company_short (db : Store) (companyname : string)
  : M Log (list Team) :=
  for_each (get_all_teams db) (λ filtered_teams team,
    let* q := any_member_short db companyname (members db team) in
    if q then ret (filtered_teams ++ [team]) else ret filtered_teams) [].

(** The input contract of section 4.3. *)
Definition member_entry (name email company : string) : value :=
  VDict [("name"%string, VStr name); ("email"%string, VStr email);
         ("company"%string, VStr company)].

Definition str_field (k : string) (v : value) : option string :=
  match v with
  | VDict d => match dict_get k d with Some (VStr s) => Some s | _ => None end
  | _ => None
  end.

Record member_fields : Type := mkFields {
  f_name : string;
  f_email : string;
  f_company : string }.

Definition wf_member (m : value) : option member_fields :=
  n ← str_field "name" m;
  e ← str_field "email" m;
  c ← str_field "company" m;
  Some (mkFields n e c).

Definition wf_document (D : value) : option (string * list member_fields) :=
  n ← str_field "name" D;
  match D with
  | VDict d =>
      match dict_get "members" d with
      | Some (VList ms) => l ← mapM wf_member ms; Some (n, l)
      | _ => None
      end
  | _ => None
  end.

(** The objects a call builds for well-formed entries, the first of
    them with identity [n]: a company and then a user for each. *)
Fixpoint member_objects (team : NewTeam) (n : nat) (fs : list member_fields)
  : list NewUser :=
  match fs with
  | [] => []
  | f :: fs' =>
      mkNewUser (S n) (VStr (f_name f)) (VStr (f_email f))
                (mkNewCompany n (VStr (f_company f))) team
      :: member_objects team (S (S n)) fs'
  end.

(** A member entry that has all of its three keys. *)
Definition complete_member (m : value) : Prop :=
  ∃ d, m = VDict d ∧ is_Some (dict_get "company" d)
       ∧ is_Some (dict_get "name" d) ∧ is_Some (dict_get "email" d).

(** The document of the scenario of section 8. *)
Definition nwa_document : value :=
  VDict [("name"%string, VStr "NWA");
         ("members"%string,
          VList [member_entry "Ice Cube" "icecube@gmail.com"
                              "Ruthless_Records";
                 member_entry "MC Ren" "ren@hotmail.com"
                              "Ruthless_Records"])].

(** The same document, its second entry without an e-mail. *)
Definition nwa_document_no_email : value :=
  VDict [("name"%string, VStr "NWA");
         ("members"%string,
          VList [member_entry "Ice Cube" "icecube@gmail.com"
                              "Ruthless_Records";
                 VDict [("name"%string, VStr "MC Ren");
                        ("company"%string, VStr "Ruthless_Records")]])].

(** The key an entry lacks, in the order [add_post_json] reads them. *)
Definition first_missing_key (d : list (string * value)) : option string :=
  match dict_get "company" d with
  | None => Some "company"%string
  | Some _ =>
      match dict_get "name" d with
      | None => Some "name"%string
      | Some _ =>
          match dict_get "email" d with
          | None => Some "email"%string
          | Some _ => None
          end
      end
  end.

(** [missing_field D k]: [k] is the first expected field that the
    document [D] lacks. *)
Inductive missing_field : value → string → Prop :=
| missing_name d :
    dict_get "name" d = None → missing_field (VDict d) "name"
| missing_members d :
    is_Some (dict_get "name" d) → dict_get "members" d = None →
    missing_field (VDict d) "members"
| missing_in_member d pre dm post k :
    is_Some (dict_get "name" d) →
    dict_get "members" d = Some (VList (pre ++ VDict dm :: post)) →
    Forall complete_member pre →
    first_missing_key dm = Some k →
    missing_field (VDict d) k.

(** ** The remaining routes *)

(** The route [/teams]. *)
Module Route.
Definition teams (escape : string → string) (db : Store) : M Log value :=
  let teams := get_all_teams db in
  teams_to_json escape db teams.
End Route.

(** The route [/add/team], on [request.json]. *)
Definition add_team (post_data : value) : M Session value :=
  do* add_post_json post_data in
  ret (VStr "Added Team").

(** The documents [add_post_json] runs through: a dictionary with the
    keys [name] and [members], the latter iterable, every item of it a
    dictionary with the three keys of an entry.  The values are not
    looked at. *)
Definition accepted (D : value) : Prop :=
  ∃ d name ms items,
    D = VDict d ∧ dict_get "name" d = Some name
    ∧ dict_get "members" d = Some ms ∧ iter ms = Ok items
    ∧ Forall complete_member items.

(** A member of one of [ts] has no company. *)
Definition orphan_member (db : Store) (ts : list Team) : Prop :=
  Exists (λ t, Exists (λ m, company db m = None) (members db t)) ts.

(** The row a commit gives the team of an ingested document. *)
Definition new_team_row (db : Store) (name : string) : Team :=
  mkTeam (fresh_id (team_id <$> teams db)) (VStr name).


(** The start-of-day rows and one more user, in team 1, whose
    [company_id] is NULL. *)
Definition orphan_store : Store :=
  mkStore (teams test_data)
          (users test_data
           ++ [mkUser 5 (VStr "Eazy-E") (VStr "eazy@gmail.com") (Some 1) None])
          (companies test_data).

(** A document with every key and no value of the expected type. *)
Definition untyped_document : value :=
  VDict [("name"%string, VInt 7);
         ("members"%string,
          VList [VDict [("name"%string, VNone); ("email"%string, VBool true);
                        ("company"%string, VList [])]])].

(** * Properties *)

Example test_data_rows :
  test_data =
  mkStore
    [mkTeam 1 (VStr "NWA"); mkTeam 2 (VStr "GFUNK")]
    [mkUser 1 (VStr "Ice Cube") (VStr "icecube@gmail.com") (Some 1) (Some 2);
     mkUser 2 (VStr "MC Ren") (VStr "ren@hotmail.com") (Some 1) (Some 2);
     mkUser 3 (VStr "Warren G") (VStr "warren@gmail.com") (Some 2) (Some 1);
     mkUser 4 (VStr "Nate Dogg") (VStr "nate@gmail.com") (Some 2) (Some 1)]
    [mkCompany 1 (VStr "Def_Jam_Records");
     mkCompany 2 (VStr "Ruthless_Records")].
Proof. vm_compute. reflexivity. Qed.

Example company_query_test_data :
  get_team_by_company test_data "Ruthless_Records" [] =
  (Ok [mkTeam 1 (VStr "NWA")],
   [EvNameCmp 1; EvNameCmp 2; EvNameCmp 3; EvNameCmp 4]).
Proof. vm_compute. reflexivity. Qed.

Example company_query_short_test_data :
  get_team_by_company_short test_data "Ruthless_Records" [] =
  (Ok [mkTeam 1 (VStr "NWA")], [EvNameCmp 1; EvNameCmp 3; EvNameCmp 4]).
Proof. vm_compute. reflexivity. Qed.

(** ** The monad and the loops *)

Ltac run := unfold bind, ret, raise, lift, emit in *; cbn in *.

Lemma bind_ok {S A B} (m : M S A) (f : A → M S B) s a s' :
  m s = (Ok a, s') → bind m f s = f a s'.
Proof. intros H. unfold bind. by rewrite H. Qed.

Lemma for_each_app {S A B} (xs ys : list A) (body : B → A → M S B) acc s :
  for_each (xs ++ ys) body acc s
  = bind (for_each xs body acc) (for_each ys body) s.
Proof.
  revert acc s. induction xs as [|x xs IH]; intros acc s; cbn.
  - reflexivity.
  - unfold bind in *. destruct (body acc x s) as [[a|e] s1]; [|done].
    apply IH.
Qed.

(** A loop whose body never raises is a fold, of the loop's variables
    and of the state. *)
Lemma for_each_fold {S A B} (xs : list A) (body : B → A → M S B)
    (f : B → A → B) (g : S → A → S) acc s :
  (∀ x, x ∈ xs → ∀ acc s, body acc x s = (Ok (f acc x), g s x)) →
  for_each xs body acc s = (Ok (foldl f acc xs), foldl g s xs).
Proof.
  revert acc s. induction xs as [|x xs IH]; intros acc s Hbody; cbn.
  - reflexivity.
  - unfold bind. rewrite Hbody by set_solver.
    apply IH. intros y Hy. apply Hbody. set_solver.
Qed.

Lemma snoc_fold {A B} (f : A → B) (xs : list A) (acc : list B) :
  foldl (λ l x, l ++ [f x]) acc xs = acc ++ (f <$> xs).
Proof.
  revert acc. induction xs as [|x xs IH]; intros acc; cbn.
  - by rewrite app_nil_r.
  - by rewrite IH, <-app_assoc.
Qed.

(** ** Rows and relationships *)

Lemma company_is_Some db u :
  Exists (λ c, user_company_id u = Some (company_id c)) (companies db) →
  is_Some (company db u).
Proof.
  intros Hex. unfold company.
  apply Exists_exists in Hex as (c & Hin & Hc). rewrite Hc.
  destruct (list_find (λ c0, company_id c0 = company_id c) (companies db))
    as [p|] eqn:Hf; [by eexists|].
  apply list_find_None in Hf.
  rewrite Forall_forall in Hf. by destruct (Hf c Hin).
Qed.

Lemma wf_members_company db t :
  db_wf db → Forall (λ m, is_Some (company db m)) (members db t).
Proof.
  intros (_ & _ & _ & Hc). apply Forall_forall. intros m Hm.
  apply list_elem_of_filter in Hm as [_ Hm].
  rewrite Forall_forall in Hc. by apply company_is_Some, Hc.
Qed.

Lemma qualifies_has_member db c t :
  qualifies db c t = true ↔ has_member_of db c t.
Proof.
  unfold qualifies, has_member_of, member_matches. rewrite existsb_exists.
  split.
  - intros (m & Hin & Hm). apply list_elem_of_In in Hin.
    destruct (company db m) as [co|] eqn:Hco; [|done].
    exists m, co. split; [done|]. split; [done|].
    destruct (company_name co); try done.
    cbn in Hm. by apply String.eqb_eq in Hm as ->.
  - intros (m & co & Hin & Hco & Hn). exists m.
    split; [by apply list_elem_of_In|].
    rewrite Hco, Hn. cbn. apply String.eqb_refl.
Qed.

Lemma team_in_true t l :
  team_in t l = true ↔ team_id t ∈ team_id <$> l.
Proof.
  unfold team_in. rewrite existsb_exists, list_elem_of_fmap. split.
  - intros (x & Hin & Heq). exists x. split; [lia|by apply list_elem_of_In].
  - intros (x & Heq & Hin). exists x.
    split; [by apply list_elem_of_In|lia].
Qed.

Lemma team_in_snoc t l : team_in t (l ++ [t]) = true.
Proof. apply team_in_true. rewrite fmap_app. set_solver. Qed.

(** ** The company query *)

(** One team's scan: every member is compared, and the team is appended
    at most once. *)
Lemma append_team_once db c team ms acc :
  foldl (λ ft m, if member_matches db c m && negb (team_in team ft)
                 then ft ++ [team] else ft) acc ms
  = if team_in team acc then acc
    else if existsb (member_matches db c) ms then acc ++ [team] else acc.
Proof.
  revert acc. induction ms as [|m ms IH]; intros acc; cbn.
  - by destruct (team_in team acc).
  - rewrite IH. destruct (team_in team acc) eqn:Hin.
    + rewrite andb_false_r. by rewrite Hin.
    + rewrite andb_true_r. destruct (member_matches db c m); cbn.
      * by rewrite team_in_snoc.
      * by rewrite Hin.
Qed.

Lemma scan_members db c team ms acc log :
  Forall (λ m, is_Some (company db m)) ms →
  for_each ms (λ filtered_teams member,
      let* n := member_company_name db member in
      do* emit (EvNameCmp (user_id member)) in
      if str_eq n c && negb (team_in team filtered_teams)
      then ret (filtered_teams ++ [team])
      else ret filtered_teams) acc log
  = (Ok (if team_in team acc then acc
         else if existsb (member_matches db c) ms then acc ++ [team]
              else acc),
     log ++ ((λ m, EvNameCmp (user_id m)) <$> ms)).
Proof.
  intros Hco.
  rewrite <-append_team_once, <-snoc_fold.
  apply for_each_fold. intros m Hm ft l.
  rewrite Forall_forall in Hco. destruct (Hco m Hm) as [co Hc].
  unfold member_matches, member_company_name. rewrite Hc. run.
  by destruct (str_eq (company_name co) c && negb (team_in team ft)).
Qed.

Lemma all_comparisons_fold db ts log :
  foldl (λ l t, l ++ ((λ m, EvNameCmp (user_id m)) <$> members db t)) log ts
  = log ++ all_comparisons db ts.
Proof.
  unfold all_comparisons. revert log.
  induction ts as [|t ts IH]; intros log; cbn.
  - by rewrite app_nil_r.
  - by rewrite IH, fmap_app, <-app_assoc.
Qed.

(** Primary keys being unique, the identity test never hides a second
    team, and the scan keeps exactly the qualifying teams. *)
Lemma keep_qualifying db c ts acc :
  NoDup (team_id <$> acc ++ ts) →
  foldl (λ ft t, if team_in t ft then ft
                 else if qualifies db c t then ft ++ [t] else ft) acc ts
  = acc ++ filter (λ t, qualifies db c t = true) ts.
Proof.
  revert acc. induction ts as [|t ts IH]; intros acc Hnd; cbn [foldl].
  - by rewrite filter_nil, app_nil_r.
  - assert (team_in t acc = false) as ->.
    { apply not_true_iff_false. rewrite team_in_true.
      rewrite fmap_app, fmap_cons in Hnd.
      apply NoDup_app in Hnd as (_ & Hd & _). intros Hin.
      apply (Hd _ Hin). apply elem_of_cons. by left. }
    rewrite filter_cons.
    destruct (qualifies db c t) eqn:Hq.
    + rewrite decide_True by done.
      rewrite IH; [|by rewrite <-app_assoc].
      by rewrite <-!app_assoc.
    + rewrite decide_False by done.
      apply IH.
      rewrite fmap_app, fmap_cons in Hnd. rewrite fmap_app.
      apply NoDup_app in Hnd as (Ha & Hd & Ht).
      apply NoDup_app. split; [done|]. split.
      * intros x Hx Hx'. apply (Hd x Hx). apply elem_of_cons. by right.
      * by apply NoDup_cons in Ht as [_ ?].
Qed.

Lemma scan_teams db c ts acc log :
  (∀ t, Forall (λ m, is_Some (company db m)) (members db t)) →
  NoDup (team_id <$> acc ++ ts) →
  for_each ts (λ filtered_teams team,
    for_each (members db team) (λ filtered_teams member,
      let* n := member_company_name db member in
      do* emit (EvNameCmp (user_id member)) in
      if str_eq n c && negb (team_in team filtered_teams)
      then ret (filtered_teams ++ [team])
      else ret filtered_teams) filtered_teams) acc log
  = (Ok (acc ++ filter (λ t, qualifies db c t = true) ts),
     log ++ all_comparisons db ts).
Proof.
  intros Hco Hnd.
  rewrite <-keep_qualifying, <-all_comparisons_fold by done.
  apply for_each_fold. intros t _ ft l.
  rewrite scan_members by apply Hco. reflexivity.
Qed.

Lemma get_team_by_company_run db c log :
  db_wf db →
  get_team_by_company db c log
  = (Ok (filter (λ t, qualifies db c t = true) (teams db)),
     log ++ all_comparisons db (teams db)).
Proof.
  intros Hwf. unfold get_team_by_company, get_all_teams.
  rewrite scan_teams; [done| |].
  - intros t. by apply wf_members_company.
  - by destruct Hwf as [? _].
Qed.

Lemma no_user_of_not_qualifies db c t :
  no_user_of db c → qualifies db c t = false.
Proof.
  intros Hno. apply not_true_iff_false. rewrite qualifies_has_member.
  intros (m & co & Hin & Hco & Hn).
  apply list_elem_of_filter in Hin as [_ Hin]. by apply (Hno m co).
Qed.

(** The spec's reading computes the same teams: one qualifying member
    is enough. *)
Lemma any_member_short_run db c ms log :
  Forall (λ m, is_Some (company db m)) ms →
  ∃ log', any_member_short db c ms log
          = (Ok (existsb (member_matches db c) ms), log').
Proof.
  intros Hco. revert log.
  induction Hco as [|m ms [co Hm] _ IH]; intros log; cbn.
  - by eexists.
  - unfold member_matches at 1, member_company_name. rewrite Hm. run.
    destruct (str_eq (company_name co) c); cbn; [by eexists|apply IH].
Qed.

Lemma scan_teams_short db c ts acc log :
  (∀ t, Forall (λ m, is_Some (company db m)) (members db t)) →
  ∃ log',
    for_each ts (λ filtered_teams team,
      let* q := any_member_short db c (members db team) in
      if q then ret (filtered_teams ++ [team]) else ret filtered_teams)
      acc log
    = (Ok (acc ++ filter (λ t, qualifies db c t = true) ts), log').
Proof.
  intros Hco. revert acc log.
  induction ts as [|t ts IH]; intros acc log; cbn [for_each].
  - rewrite filter_nil, app_nil_r. by eexists.
  - destruct (any_member_short_run db c (members db t) log (Hco t))
      as [l1 H1].
    unfold bind. rewrite H1.
    rewrite filter_cons. fold (qualifies db c t).
    destruct (qualifies db c t).
    + rewrite decide_True by done.
      replace (acc ++ t :: filter (λ t, qualifies db c t = true) ts)
        with ((acc ++ [t]) ++ filter (λ t, qualifies db c t = true) ts)
        by (by rewrite <-app_assoc).
      apply IH.
    + rewrite decide_False by done. apply IH.
Qed.

Lemma get_team_by_company_short_run db c log :
  db_wf db →
  ∃ log', get_team_by_company_short db c log
          = (Ok (filter (λ t, qualifies db c t = true) (teams db)), log').
Proof.
  intros Hwf. unfold get_team_by_company_short, get_all_teams.
  apply (scan_teams_short db c (teams db) []).
  intros t. by apply wf_members_company.
Qed.

(** ** Claims about the company query *)

(** C1: on a store that meets the data model's invariants,
    [get_team_by_company c] returns exactly the persisted teams with at
    least one member whose company's name is [c], each once, and
    nothing when no persisted user's company has that name. *)
Theorem get_team_by_company_exact db c log :
  db_wf db →
  ∃ r log', get_team_by_company db c log = (Ok r, log')
    ∧ (∀ t, t ∈ r ↔ t ∈ teams db ∧ has_member_of db c t)
    ∧ NoDup r
    ∧ (no_user_of db c → r = []).
Proof.
  intros Hwf. eexists _, _. split; [by apply get_team_by_company_run|].
  split; [|split].
  - intros t. rewrite list_elem_of_filter, qualifies_has_member. tauto.
  - apply NoDup_filter. destruct Hwf as [Hnd _].
    by apply NoDup_fmap_1 in Hnd.
  - intros Hno. induction (teams db) as [|t ts IH]; [done|].
    rewrite filter_cons, decide_False; [done|].
    by rewrite no_user_of_not_qualifies.
Qed.

(** C10: the result of [get_team_by_company] is a subsequence of
    [get_all_teams]: the qualifying teams, in the listing's order. *)
Theorem get_team_by_company_sublist db c log :
  db_wf db →
  ∃ r log', get_team_by_company db c log = (Ok r, log')
    ∧ sublist r (get_all_teams db)
    ∧ r = filter (λ t, qualifies db c t = true) (get_all_teams db)
    ∧ (∀ t, qualifies db c t = true ↔ has_member_of db c t).
Proof.
  intros Hwf. eexists _, _. split; [by apply get_team_by_company_run|].
  split; [apply sublist_filter|]. split; [done|].
  intros t. apply qualifies_has_member.
Qed.

(** C4, as the code has it: the scan has no [break].  Every member of
    every team is compared with the target name, also after a member of
    the same team has matched; the teams returned are those of the
    short-circuit scan all the same. *)
Theorem get_team_by_company_scans_all db c log :
  db_wf db →
  ∃ r log', get_team_by_company_short db c log = (Ok r, log')
    ∧ get_team_by_company db c log
      = (Ok r, log ++ all_comparisons db (get_all_teams db)).
Proof.
  intros Hwf.
  destruct (get_team_by_company_short_run db c log Hwf) as [log' Hs].
  eexists _, log'. split; [exact Hs|].
  by apply get_team_by_company_run.
Qed.

(** C4, as stated, fails on the start-of-day data: MC Ren (user 2) is
    compared although Ice Cube (user 1) has already qualified NWA. *)
Lemma get_team_by_company_rechecks :
  snd (get_team_by_company test_data "Ruthless_Records" [])
  = [EvNameCmp 1; EvNameCmp 2; EvNameCmp 3; EvNameCmp 4]
  ∧ snd (get_team_by_company_short test_data "Ruthless_Records" [])
    = [EvNameCmp 1; EvNameCmp 3; EvNameCmp 4]
  ∧ snd (get_team_by_company test_data "Ruthless_Records" [])
    ≠ snd (get_team_by_company_short test_data "Ruthless_Records" []).
Proof.
  rewrite company_query_test_data, company_query_short_test_data.
  by repeat split.
Qed.

(** ** The projection layer *)

Section ProjectionProperties.

Variable escape : string → string.

Lemma mapM_default {A} (f : A → option value) (xs : list A) :
  Forall (λ x, is_Some (f x)) xs →
  mapM f xs = Some ((λ x, default VNone (f x)) <$> xs).
Proof.
  intros H. apply mapM_Some. induction H as [|x xs [y Hy] _ IH]; cbn.
  - constructor.
  - constructor; [by rewrite Hy|done].
Qed.

Lemma json_dumps_run v log :
  json_dumps escape v log = (Ok (VStr (dumps escape v)), log ++ [EvDumps]).
Proof. reflexivity. Qed.

Lemma company_to_json_run c dump log :
  company_to_json escape (Some c) dump log
  = if dump
    then (Ok (VStr (dumps escape (project_company c))), log ++ [EvDumps])
    else (Ok (project_company c), log).
Proof. by destruct dump. Qed.

Lemma users_to_json_run db users dump log :
  Forall (λ u, is_Some (company db u)) users →
  ∃ docs, mapM (project_user db) users = Some docs
    ∧ users_to_json escape db users dump log
      = if dump
        then (Ok (VStr (dumps escape (VList docs))), log ++ [EvDumps])
        else (Ok (VList docs), log).
Proof.
  intros Hco. eexists. split.
  { apply mapM_default. eapply Forall_impl; [exact Hco|].
    intros u [c Hc]. unfold project_user. rewrite Hc. by eexists. }
  unfold users_to_json.
  erewrite bind_ok; last first.
  { apply (for_each_fold users _
             (λ l u, l ++ [default VNone (project_user db u)])
             (λ s _, s)).
    intros u Hu acc s. rewrite Forall_forall in Hco.
    destruct (Hco u Hu) as [c Hc].
    unfold project_user. rewrite Hc. reflexivity. }
  rewrite snoc_fold. cbn [app].
  replace (foldl (λ (s : Log) (_ : User), s) log users) with log
    by (clear; induction users; [done|by cbn]).
  by destruct dump.
Qed.

Lemma teams_to_json_run db teams log :
  db_wf db →
  ∃ docs, mapM (project_team db) teams = Some docs
    ∧ teams_to_json escape db teams log
      = (Ok (VStr (dumps escape (VList docs))), log ++ [EvDumps]).
Proof.
  intros Hwf.
  assert (∀ t, is_Some (project_team db t)) as Hteam.
  { intros t. unfold project_team.
    destruct (users_to_json_run db (members db t) false []
                (wf_members_company db t Hwf)) as (ms & -> & _).
    by eexists. }
  eexists. split.
  { apply mapM_default. apply Forall_forall. intros t _. apply Hteam. }
  unfold teams_to_json.
  erewrite bind_ok; last first.
  { apply (for_each_fold teams _
             (λ l t, l ++ [default VNone (project_team db t)])
             (λ s _, s)).
    intros t _ acc s. unfold project_team.
    destruct (users_to_json_run db (members db t) false s
                (wf_members_company db t Hwf)) as (ms & -> & Hrun).
    unfold bind. rewrite Hrun. reflexivity. }
  rewrite snoc_fold. cbn [app].
  replace (foldl (λ (s : Log) (_ : Team), s) log teams) with log
    by (clear; induction teams; [done|by cbn]).
  reflexivity.
Qed.

Lemma project_user_shape db us ms :
  mapM (project_user db) us = Some ms →
  Forall2 (λ u m, ∃ c, company db u = Some c ∧ m = user_document u c)
          us ms.
Proof.
  intros H. apply mapM_Some_1 in H.
  eapply Forall2_impl; [exact H|]. intros u m Hu. cbn in Hu.
  unfold project_user in Hu.
  destruct (company db u) as [c|]; [|done]. exists c.
  cbn in Hu. by injection Hu as <-.
Qed.

Lemma project_team_shape db ts docs :
  mapM (project_team db) ts = Some docs →
  Forall2 (λ t d, ∃ ms, d = team_document t ms
             ∧ Forall2 (λ u m, ∃ c, company db u = Some c
                                    ∧ m = user_document u c)
                       (members db t) ms)
          ts docs.
Proof.
  intros H. apply mapM_Some_1 in H.
  eapply Forall2_impl; [exact H|]. intros t d Ht. cbn in Ht.
  unfold project_team in Ht.
  destruct (mapM (project_user db) (members db t)) as [ms|] eqn:Hms;
    [|done].
  exists ms. cbn in Ht. injection Ht as <-.
  split; [done|by apply project_user_shape].
Qed.

(** C7: the projected documents have the wire shapes: a team is
    [{id, name, members}] with the members in the order of
    [team.members], a user is [{id, name, company, email}] with the
    company document inline, a company is [{name, id}]. *)
Theorem projection_wire_shapes db teams log :
  db_wf db →
  ∃ docs,
    teams_to_json escape db teams log
    = (Ok (VStr (dumps escape (VList docs))), log ++ [EvDumps])
    ∧ Forall2
        (λ t d, ∃ ms,
           d = VDict [("id"%string, VInt (team_id t));
                      ("name"%string, team_name t);
                      ("members"%string, VList ms)]
           ∧ Forall2
               (λ u m, ∃ c, company db u = Some c ∧
                  m = VDict [("id"%string, VInt (user_id u));
                             ("name"%string, user_name u);
                             ("company"%string,
                              VDict [("name"%string, company_name c);
                                     ("id"%string, VInt (company_id c))]);
                             ("email"%string, user_email u)])
               (members db t) ms)
        teams docs.
Proof.
  intros Hwf.
  destruct (teams_to_json_run db teams log Hwf) as (docs & Hdocs & Hrun).
  exists docs. split; [exact Hrun|].
  by apply project_team_shape.
Qed.

(** C5: [json.dumps] runs once, at the outermost call.
    [teams_to_json] serializes the list of team documents once, the
    nested calls run with [dump=False] and hand back the document
    itself, which is embedded as a list or a dictionary and not as
    text. *)
Theorem serialized_once db teams log :
  db_wf db →
  (∃ docs,
     mapM (project_team db) teams = Some docs
     ∧ teams_to_json escape db teams log
       = (Ok (VStr (dumps escape (VList docs))), log ++ [EvDumps])
     ∧ Forall (λ d, ∃ t ms, d = team_document t ms
                 ∧ Forall (λ m, ∃ u c, m = user_document u c) ms) docs)
  ∧ (∀ t, ∃ ms,
       mapM (project_user db) (members db t) = Some ms
       ∧ users_to_json escape db (members db t) false log
         = (Ok (VList ms), log)
       ∧ users_to_json escape db (members db t) true log
         = (Ok (VStr (dumps escape (VList ms))), log ++ [EvDumps]))
  ∧ (∀ c, company_to_json escape (Some c) false log
          = (Ok (company_document c), log)
        ∧ company_to_json escape (Some c) true log
          = (Ok (VStr (dumps escape (company_document c))),
             log ++ [EvDumps])).
Proof.
  intros Hwf. split; [|split].
  - destruct (teams_to_json_run db teams log Hwf) as (docs & Hdocs & Hrun).
    exists docs. split; [done|]. split; [done|].
    apply project_team_shape in Hdocs.
    clear Hrun. induction Hdocs as [|t d ts ds (ms & -> & Hms) _ IH].
    + constructor.
    + constructor; [|exact IH]. exists t, ms. split; [done|].
      clear -Hms. induction Hms as [|u m us ms' (c & _ & ->) _ IH].
      * constructor.
      * constructor; [by exists u, c|exact IH].
  - intros t.
    pose proof (wf_members_company db t Hwf) as Hco.
    destruct (users_to_json_run db (members db t) false log Hco)
      as (ms & Hms & Hraw).
    destruct (users_to_json_run db (members db t) true log Hco)
      as (ms' & Hms' & Htext).
    exists ms. rewrite Hms in Hms'. injection Hms' as <-. done.
  - intros c. split.
    + apply (company_to_json_run c false).
    + apply (company_to_json_run c true).
Qed.

(** C6: [get_team_by_name n] returns all and only the persisted teams
    whose name is exactly [n], and when there is none the route's
    answer is the text of the empty array. *)
Theorem get_team_by_name_exact db n :
  (∀ t, t ∈ get_team_by_name db n ↔ t ∈ teams db ∧ team_name t = VStr n)
  ∧ sublist (get_team_by_name db n) (get_all_teams db)
  ∧ ((∀ t, t ∈ teams db → team_name t ≠ VStr n) →
     get_team_by_name db n = []
     ∧ ∀ log, team_by_name escape db n log
              = (Ok (VStr "[]"), log ++ [EvDumps])).
Proof.
  assert (∀ t, str_eq (team_name t) n = true ↔ team_name t = VStr n)
    as Heq.
  { intros t. destruct (team_name t); cbn; try by split.
    rewrite String.eqb_eq. split; [by intros ->|by intros [= ->]]. }
  split; [|split].
  - intros t. unfold get_team_by_name.
    rewrite list_elem_of_filter, Heq. tauto.
  - apply sublist_filter.
  - intros Hnone.
    assert (get_team_by_name db n = []) as Hnil.
    { unfold get_team_by_name. induction (teams db) as [|t ts IH]; [done|].
      rewrite filter_cons, decide_False.
      - apply IH. intros t' Ht'. apply Hnone. apply elem_of_cons. by right.
      - rewrite Heq. apply Hnone. apply elem_of_cons. by left. }
    split; [exact Hnil|]. intros log.
    unfold team_by_name. rewrite Hnil. reflexivity.
Qed.

End ProjectionProperties.

Example name_query_is_case_sensitive :
  get_team_by_name test_data "NWA" = [mkTeam 1 (VStr "NWA")]
  ∧ get_team_by_name test_data "nwa" = [].
Proof. split; vm_compute; reflexivity. Qed.

(** ** Ingestion *)

Lemma wf_member_inv m f :
  wf_member m = Some f →
  ∃ d, m = VDict d
    ∧ dict_get "name" d = Some (VStr (f_name f))
    ∧ dict_get "email" d = Some (VStr (f_email f))
    ∧ dict_get "company" d = Some (VStr (f_company f)).
Proof.
  unfold wf_member, str_field. intros H.
  destruct m as [| | | |l|d]; try done. exists d.
  destruct (dict_get "name" d) as [[| | |n| |]|]; try done.
  destruct (dict_get "email" d) as [[| | |e| |]|]; try done.
  destruct (dict_get "company" d) as [[| | |c| |]|]; try done.
  cbn in H. by injection H as <-.
Qed.

Lemma wf_document_inv D name fs :
  wf_document D = Some (name, fs) →
  ∃ d ms, D = VDict d
    ∧ dict_get "name" d = Some (VStr name)
    ∧ dict_get "members" d = Some (VList ms)
    ∧ mapM wf_member ms = Some fs.
Proof.
  unfold wf_document, str_field. intros H.
  destruct D as [| | | |l|d]; try done.
  destruct (dict_get "name" d) as [[| | |n| |]|] eqn:Hn; try done.
  cbn in H.
  destruct (dict_get "members" d) as [[| | | |ms|]|] eqn:Hms; try done.
  destruct (mapM wf_member ms) as [fs'|] eqn:Hfs; try done.
  cbn in H. injection H as <- <-. by exists d, ms.
Qed.

Lemma company_in_fresh c cs :
  Forall (λ c', nc_obj c' < nc_obj c)%nat cs → company_in c cs = false.
Proof.
  intros H. unfold company_in. apply not_true_iff_false.
  rewrite existsb_exists. intros (c' & Hin & Heq).
  rewrite Forall_forall in H. apply list_elem_of_In, H in Hin.
  apply Nat.eqb_eq in Heq. lia.
Qed.

Lemma add_member_wf team cs us m f s :
  wf_member m = Some f →
  Forall (λ c, nc_obj c < next_obj s)%nat cs →
  add_member team (cs, us) m s
  = (Ok (cs ++ [mkNewCompany (next_obj s) (VStr (f_company f))],
         us ++ member_objects team (next_obj s) [f]),
     mkSession (S (S (next_obj s))) (staged s)).
Proof.
  intros (d & -> & Hn & He & Hc)%wf_member_inv Hfresh.
  unfold add_member, getitem. rewrite Hn, He, Hc. run.
  change (existsb _ cs)
    with (company_in (mkNewCompany (next_obj s) (VStr (f_company f))) cs).
  by rewrite company_in_fresh.
Qed.

Lemma add_members_wf team ms fs cs us s :
  mapM wf_member ms = Some fs →
  Forall (λ c, nc_obj c < next_obj s)%nat cs →
  for_each ms (add_member team) (cs, us) s
  = (Ok (cs ++ (nu_company <$> member_objects team (next_obj s) fs),
         us ++ member_objects team (next_obj s) fs),
     mkSession (next_obj s + 2 * length fs) (staged s)).
Proof.
  intros Hfs%mapM_Some_1. revert cs us s.
  induction Hfs as [|m f ms fs Hm _ IH]; intros cs us s Hfresh.
  - cbn. unfold ret. rewrite !app_nil_r, Nat.add_0_r. by destruct s.
  - cbn [for_each]. erewrite bind_ok by (by apply add_member_wf).
    rewrite IH; cbn.
    + rewrite <-!app_assoc. repeat f_equal. lia.
    + apply Forall_app. split.
      * eapply Forall_impl; [exact Hfresh|]. cbn. lia.
      * repeat constructor.
Qed.

Lemma session_add_all_run ps s :
  session_add_all ps s = (Ok tt, mkSession (next_obj s) (staged s ++ ps)).
Proof.
  unfold session_add_all. revert s.
  induction ps as [|p ps IH]; intros s; cbn.
  - unfold ret. rewrite app_nil_r. by destruct s.
  - unfold bind, session_add at 1. rewrite IH. cbn.
    by rewrite <-app_assoc.
Qed.

(** What a call stages for a well-formed document: the team, then one
    company per entry, then one user per entry. *)
Lemma add_post_json_wf D name fs s :
  wf_document D = Some (name, fs) →
  let team := mkNewTeam (next_obj s) (VStr name) in
  let us := member_objects team (S (next_obj s)) fs in
  add_post_json D s
  = (Ok tt,
     mkSession (S (next_obj s) + 2 * length fs)
       (staged s ++ PTeam team :: (PCompany <$> (nu_company <$> us))
                ++ (PUser <$> us))).
Proof.
  intros (d & ms & -> & Hn & Hms & Hfs)%wf_document_inv team us.
  unfold add_post_json, getitem. rewrite Hn, Hms.
  unfold bind, lift, ret, Team_new, new_obj, iter.
  cbn -[for_each session_add_all].
  rewrite (add_members_wf _ _ fs) by (done || constructor).
  cbn -[session_add_all].
  rewrite !session_add_all_run. cbn.
  by rewrite <-!app_assoc.
Qed.

Lemma member_objects_length team n fs :
  length (member_objects team n fs) = length fs.
Proof.
  revert n. induction fs as [|f fs IH]; intros n; cbn; [done|].
  by rewrite IH.
Qed.

Lemma member_objects_lookup team n fs i :
  member_objects team n fs !! i
  = (λ f, mkNewUser (S (n + 2 * i)) (VStr (f_name f)) (VStr (f_email f))
            (mkNewCompany (n + 2 * i) (VStr (f_company f))) team)
    <$> fs !! i.
Proof.
  revert n i. induction fs as [|f fs IH]; intros n [|i]; cbn; try done.
  - by rewrite Nat.add_0_r.
  - rewrite IH. destruct (fs !! i); cbn; [|done].
    repeat f_equal; lia.
Qed.

Lemma member_objects_company_obj team n fs :
  Forall (λ u, n ≤ nc_obj (nu_company u))%nat (member_objects team n fs).
Proof.
  revert n. induction fs as [|f fs IH]; intros n; cbn; constructor.
  - cbn. lia.
  - eapply Forall_impl; [apply IH|]. cbn. lia.
Qed.

Lemma member_objects_distinct team n fs :
  NoDup (nc_obj <$> (nu_company <$> member_objects team n fs)).
Proof.
  revert n. induction fs as [|f fs IH]; intros n; cbn; constructor.
  - rewrite <-list_fmap_compose, list_elem_of_fmap.
    intros (u & Hu & Hin). cbn in Hu.
    pose proof (member_objects_company_obj team (S (S n)) fs) as Hge.
    rewrite Forall_forall in Hge. apply Hge in Hin. lia.
  - apply IH.
Qed.

Lemma member_objects_company_name team n fs :
  nc_name <$> (nu_company <$> member_objects team n fs)
  = (λ f, VStr (f_company f)) <$> fs.
Proof.
  revert n. induction fs as [|f fs IH]; intros n; cbn; [done|].
  by rewrite IH.
Qed.

Lemma staged_after team cs us s0 n :
  let s' := mkSession n (staged s0 ++ PTeam team :: (PCompany <$> cs)
                           ++ (PUser <$> us)) in
  staged_teams s' = staged_teams s0 ++ [team]
  ∧ staged_companies s' = staged_companies s0 ++ cs
  ∧ staged_users s' = staged_users s0 ++ us.
Proof.
  assert (∀ (cs : list NewCompany) (us : list NewUser),
    omap (λ p, match p with PTeam t => Some t | _ => None end)
         ((PCompany <$> cs) ++ (PUser <$> us)) = []
    ∧ omap (λ p, match p with PCompany c => Some c | _ => None end)
         ((PCompany <$> cs) ++ (PUser <$> us)) = cs
    ∧ omap (λ p, match p with PUser u => Some u | _ => None end)
         ((PCompany <$> cs) ++ (PUser <$> us)) = us) as H.
  { clear. intros cs us. induction cs as [|c cs (IH1 & IH2 & IH3)]; cbn.
    - induction us as [|u us (IH1 & IH2 & IH3)]; cbn; [done|].
      by rewrite IH1, IH2, IH3.
    - by rewrite IH1, IH2, IH3. }
  destruct (H cs us) as (H1 & H2 & H3).
  unfold staged_teams, staged_companies, staged_users. cbn.
  rewrite !omap_app. cbn. by rewrite H1, H2, H3.
Qed.

(** C9: a call with a well-formed document of [n] entries stages [n]
    new companies, one per entry and named as the entry says, all of
    them distinct objects, whether or not two entries name the same
    company. *)
Theorem add_post_json_company_per_member D name fs s :
  wf_document D = Some (name, fs) →
  ∃ s' cs, add_post_json D s = (Ok tt, s')
    ∧ staged_companies s' = staged_companies s ++ cs
    ∧ length cs = length fs
    ∧ nc_name <$> cs = (λ f, VStr (f_company f)) <$> fs
    ∧ NoDup (nc_obj <$> cs).
Proof.
  intros Hwf. eexists _, _.
  split; [by apply add_post_json_wf|].
  split; [apply staged_after|].
  split; [|split].
  - by rewrite length_fmap, member_objects_length.
  - apply member_objects_company_name.
  - apply member_objects_distinct.
Qed.

(** The loop builds objects and stages none. *)
Lemma add_member_staged team cu m s :
  staged (snd (add_member team cu m s)) = staged s.
Proof.
  unfold add_member, bind, lift, ret, Company_new, User_new, new_obj.
  destruct (getitem m "company"); cbn; [|done].
  destruct (getitem m "name"); cbn; [|done].
  by destruct (getitem m "email").
Qed.

Lemma add_members_staged team ms cu s :
  staged (snd (for_each ms (add_member team) cu s)) = staged s.
Proof.
  revert cu s. induction ms as [|m ms IH]; intros cu s; cbn; [done|].
  unfold bind. pose proof (add_member_staged team cu m s) as Hm.
  destruct (add_member team cu m s) as [[cu'|e] s1]; cbn in *; [|done].
  by rewrite IH.
Qed.

Lemma add_member_complete team cu m s :
  complete_member m →
  ∃ cu' s', add_member team cu m s = (Ok cu', s').
Proof.
  intros (d & -> & [c Hc] & [n Hn] & [e He]).
  unfold add_member, getitem. rewrite Hc, Hn, He. by eexists _, _.
Qed.

Lemma add_members_complete team ms cu s :
  Forall complete_member ms →
  ∃ cu' s', for_each ms (add_member team) cu s = (Ok cu', s').
Proof.
  intros H. revert cu s.
  induction H as [|m ms Hm _ IH]; intros cu s; cbn.
  - by eexists _, _.
  - destruct (add_member_complete team cu m s Hm) as (cu1 & s1 & H1).
    unfold bind. rewrite H1. apply IH.
Qed.

Lemma add_member_missing team cu dm k s :
  first_missing_key dm = Some k →
  ∃ s', add_member team cu (VDict dm) s = (Raise (KeyError k), s').
Proof.
  unfold first_missing_key, add_member, getitem. intros H.
  destruct (dict_get "company" dm); [|injection H as <-; by eexists].
  destruct (dict_get "name" dm); [|injection H as <-; by eexists].
  destruct (dict_get "email" dm); [done|injection H as <-; by eexists].
Qed.

Lemma add_post_json_raises D s e s' :
  add_post_json D s = (Raise e, s') → staged s' = staged s.
Proof.
  unfold add_post_json, Team_new, new_obj, bind, lift, ret.
  destruct (getitem D "name") as [name|]; [|by intros [= _ <-]].
  cbn -[for_each session_add_all session_add add_member getitem iter].
  destruct (getitem D "members") as [ms|]; [|by intros [= _ <-]].
  destruct (iter ms) as [l|]; [|by intros [= _ <-]].
  set (team := mkNewTeam (next_obj s) name).
  set (s1 := mkSession (S (next_obj s)) (staged s)).
  pose proof (add_members_staged team l ([], []) s1) as Hst.
  destruct (for_each l (add_member team) ([], []) s1) as [[cu|e'] s2].
  - unfold session_add at 1. rewrite !session_add_all_run. done.
  - intros [= _ <-]. exact Hst.
Qed.

(** C8: a document that lacks an expected field makes [add_post_json]
    raise [KeyError] for the first such field it reads, and then
    nothing has been staged, so that nothing is persisted. *)
Theorem add_post_json_missing_field D k s :
  missing_field D k →
  ∃ s', add_post_json D s = (Raise (KeyError k), s')
    ∧ staged s' = staged s
    ∧ ∀ db, commit s' db = commit s db.
Proof.
  intros Hmiss.
  assert (∃ s', add_post_json D s = (Raise (KeyError k), s')) as [s' Hrun].
  { destruct Hmiss as [d Hn|d [n Hn] Hm|d pre dm post k [n Hn] Hm Hpre Hk];
      unfold add_post_json, getitem; rewrite Hn.
    - by eexists.
    - unfold Team_new, new_obj, bind, lift, ret. rewrite Hm. by eexists.
    - rewrite Hm. unfold Team_new, new_obj, lift.
      unfold bind at 1 2 3 4 5 6. unfold ret at 1. cbn [iter].
      set (team := mkNewTeam (next_obj s) n).
      set (s1 := mkSession (S (next_obj s)) (staged s)).
      rewrite for_each_app. cbn [for_each].
      destruct (add_members_complete team pre ([], []) s1 Hpre)
        as (cu & s2 & Hloop).
      destruct (add_member_missing team cu dm k s2 Hk) as (s3 & Hbad).
      unfold bind. rewrite Hloop, Hbad. by eexists. }
  exists s'. split; [exact Hrun|].
  pose proof (add_post_json_raises D s _ s' Hrun) as Hst.
  split; [exact Hst|].
  intros db. unfold commit, staged_teams, staged_companies, staged_users.
  by rewrite Hst.
Qed.

(** ** Persistence *)

Lemma max_id_nonneg ids : 0 ≤ foldr Z.max 0 ids.
Proof. induction ids as [|i ids IH]; cbn; lia. Qed.

Lemma fresh_id_above ids i : i ∈ ids → i < fresh_id ids.
Proof.
  unfold fresh_id. induction ids as [|j ids IH]; intros Hin.
  - by apply elem_of_nil in Hin.
  - apply elem_of_cons in Hin as [->|Hin]; cbn; [lia|].
    specialize (IH Hin). lia.
Qed.

Lemma fresh_id_app ids more : fresh_id ids ≤ fresh_id (ids ++ more).
Proof.
  unfold fresh_id. induction ids as [|j ids IH]; cbn.
  - pose proof (max_id_nonneg more). lia.
  - lia.
Qed.

Lemma filter_all {A} (P : A → Prop) `{∀ x, Decision (P x)} (l : list A) :
  Forall P l → filter P l = l.
Proof.
  induction 1 as [|x l Hx _ IH]; [done|].
  by rewrite filter_cons, decide_True, IH.
Qed.

Lemma filter_none {A} (P : A → Prop) `{∀ x, Decision (P x)} (l : list A) :
  Forall (λ x, ¬ P x) l → filter P l = [].
Proof.
  induction 1 as [|x l Hx _ IH]; [done|].
  by rewrite filter_cons, decide_False, IH.
Qed.

(** Inserting companies leaves the other tables alone, appends one row
    per object, and gives each object a key that no earlier row has. *)
Lemma insert_companies_run cs d pk :
  let r := foldl insert_company (d, pk) cs in
  teams (fst r) = teams d ∧ users (fst r) = users d
  ∧ ∃ rows, companies (fst r) = companies d ++ rows
            ∧ company_name <$> rows = nc_name <$> cs.
Proof.
  revert d pk. induction cs as [|c cs IH]; intros d pk; cbn.
  - repeat split; try done. exists []. by rewrite app_nil_r.
  - destruct (IH (insert_company (d, pk) c).1 (insert_company (d, pk) c).2)
      as (Ht & Hu & rows & Hc & Hn).
    rewrite <-surjective_pairing in Ht, Hu, Hc.
    rewrite Ht, Hu, Hc. cbn. repeat split; try done.
    eexists (_ :: rows). rewrite <-app_assoc. cbn. split; [done|].
    by rewrite Hn.
Qed.

Lemma insert_companies_keys cs d pk F :
  F ≤ fresh_id (company_id <$> companies d) →
  (∀ o i, pk !! o = Some i → F ≤ i) →
  ∀ o i, (foldl insert_company (d, pk) cs).2 !! o = Some i → F ≤ i.
Proof.
  revert d pk. induction cs as [|c cs IH]; intros d pk HF Hpk; cbn.
  - exact Hpk.
  - apply IH; cbn.
    + rewrite fmap_app. etrans; [exact HF|apply fresh_id_app].
    + intros o i [[_ <-]|[_ Hi]]%lookup_insert_Some; [done|].
      by apply (Hpk o).
Qed.

Lemma insert_companies_nodup cs d pk :
  NoDup (company_id <$> companies d) →
  NoDup (company_id <$> companies (foldl insert_company (d, pk) cs).1).
Proof.
  revert d pk. induction cs as [|c cs IH]; intros d pk Hnd; cbn; [done|].
  apply IH. cbn. rewrite fmap_app. apply NoDup_app.
  split; [done|]. split; [|apply NoDup_singleton].
  intros i Hi ->%list_elem_of_singleton. cbn in Hi.
  apply fresh_id_above in Hi. lia.
Qed.

(** Every object inserted has a key, and the keys handed out are keys
    of rows. *)
Lemma insert_companies_lookup cs d pk :
  (∀ o i, pk !! o = Some i → i ∈ company_id <$> companies d) →
  let r := foldl insert_company (d, pk) cs in
  (∀ o i, r.2 !! o = Some i → i ∈ company_id <$> companies r.1)
  ∧ (∀ o, is_Some (pk !! o) ∨ o ∈ nc_obj <$> cs → is_Some (r.2 !! o)).
Proof.
  revert d pk. induction cs as [|c cs IH]; intros d pk Hpk; cbn.
  - split; [exact Hpk|]. intros o [Ho|Ho]; [done|].
    by apply elem_of_nil in Ho.
  - destruct (IH (insert_company (d, pk) c).1 (insert_company (d, pk) c).2)
      as [Hin Hsome].
    + cbn. intros o i [[_ <-]|[_ Hi]]%lookup_insert_Some;
        rewrite fmap_app, elem_of_app.
      * right. by apply list_elem_of_singleton.
      * left. by apply (Hpk o).
    + rewrite <-surjective_pairing in Hin, Hsome.
      split; [exact Hin|]. intros o Ho. apply Hsome. cbn.
      destruct (decide (nc_obj c = o)) as [<-|Hne].
      * left. rewrite lookup_insert_eq. by eexists.
      * rewrite lookup_insert_ne by done.
        destruct Ho as [Ho|Ho]; [by left|right].
        apply elem_of_cons in Ho as [Ho|Ho]; [congruence|done].
Qed.

Lemma insert_users_run tpk cpk us d :
  let r := foldl (insert_user tpk cpk) d us in
  teams r = teams d ∧ companies r = companies d
  ∧ ∃ rows, users r = users d ++ rows
      ∧ Forall2 (λ u row,
          user_name row = nu_name u ∧ user_email row = nu_email u
          ∧ user_team_id row = tpk !! nt_obj (nu_team u)
          ∧ user_company_id row = cpk !! nc_obj (nu_company u)) us rows.
Proof.
  revert d. induction us as [|u us IH]; intros d; cbn.
  - repeat split; try done. exists []. by rewrite app_nil_r.
  - destruct (IH (insert_user tpk cpk d u)) as (Ht & Hc & rows & Hu & Hrows).
    rewrite Ht, Hc, Hu. cbn. repeat split; try done.
    eexists (_ :: rows). rewrite <-app_assoc. cbn. split; [done|].
    by constructor.
Qed.

Lemma member_objects_team team n fs :
  Forall (λ u, nu_team u = team) (member_objects team n fs).
Proof.
  revert n. induction fs as [|f fs IH]; intros n; cbn; by constructor.
Qed.

Lemma member_objects_fields team n fs :
  (λ u, (nu_name u, nu_email u)) <$> member_objects team n fs
  = (λ f, (VStr (f_name f), VStr (f_email f))) <$> fs.
Proof.
  revert n. induction fs as [|f fs IH]; intros n; cbn; [done|].
  by rewrite IH.
Qed.

(** The store after a well-formed document has been ingested and
    committed. *)
Lemma commit_add_post_json D name fs n db :
  wf_document D = Some (name, fs) →
  ∃ s' rows crows,
    add_post_json D (new_session n) = (Ok tt, s')
    ∧ teams (commit s' db)
      = teams db ++ [mkTeam (fresh_id (team_id <$> teams db)) (VStr name)]
    ∧ users (commit s' db) = users db ++ rows
    ∧ companies (commit s' db) = companies db ++ crows
    ∧ (λ r, (user_name r, user_email r)) <$> rows
      = (λ f, (VStr (f_name f), VStr (f_email f))) <$> fs
    ∧ Forall (λ r, user_team_id r = Some (fresh_id (team_id <$> teams db)))
             rows
    ∧ Forall (λ r, ∀ i, user_company_id r = Some i →
                 fresh_id (company_id <$> companies db) ≤ i) rows
    ∧ company_name <$> crows = (λ f, VStr (f_company f)) <$> fs
    ∧ (NoDup (company_id <$> companies db) →
       NoDup (company_id <$> companies db ++ crows))
    ∧ Forall (λ r, Exists (λ c, user_company_id r = Some (company_id c))
                     (companies db ++ crows)) rows.
Proof.
  intros Hwf. pose proof (add_post_json_wf D name fs (new_session n) Hwf) as H.
  cbv zeta in H. change (next_obj (new_session n)) with n in H.
  set (team := mkNewTeam n (VStr name)) in *.
  set (us := member_objects team (S n) fs) in *.
  destruct (staged_after team (nu_company <$> us) us (new_session n)
              (S n + 2 * length fs)) as (H1 & H2 & H3).
  change (staged_teams (new_session n)) with (@nil NewTeam) in H1.
  change (staged_companies (new_session n)) with (@nil NewCompany) in H2.
  change (staged_users (new_session n)) with (@nil NewUser) in H3.
  cbn [app] in H1, H2, H3.
  set (d1 := insert_team (db, ∅) team).
  destruct (insert_companies_run (nu_company <$> us) d1.1 ∅)
    as (Ht & Hu & crows & Hc & Hcn).
  pose proof (insert_companies_keys (nu_company <$> us) d1.1 ∅
                (fresh_id (company_id <$> companies db))) as Hkeys.
  set (c := foldl insert_company (d1.1, ∅) (nu_company <$> us)) in *.
  destruct (insert_users_run d1.2 c.2 us c.1) as (Ht' & Hc' & rows & Hu' & Hr).
  eexists _, rows, crows. split; [exact H|].
  unfold commit. rewrite H1, H2, H3. cbn [foldl]. fold d1. fold c.
  rewrite Ht', Hu', Hc', Ht, Hu, Hc. cbn.
  split; [done|]. split; [reflexivity|]. split; [reflexivity|].
  split; [|split; [|split; [|split; [|split]]]].
  - rewrite <-member_objects_fields with (team := team) (n := S n).
    fold us. clear -Hr. induction Hr as [|u r us rs (Hn & He & _) _ IH];
      cbn; [done|]. by rewrite Hn, He, IH.
  - pose proof (member_objects_team team (S n) fs) as Hteam. fold us in Hteam.
    clear -Hr Hteam. induction Hr as [|u r us rs (_ & _ & Htid & _) _ IH];
      [constructor|].
    apply Forall_cons in Hteam as [Hu Hteam].
    constructor; [|by apply IH].
    rewrite Htid, Hu. cbn. apply lookup_insert_eq.
  - assert (∀ o i, c.2 !! o = Some i →
              fresh_id (company_id <$> companies db) ≤ i) as Hk.
    { apply Hkeys; [done|]. intros o i Hi. by rewrite lookup_empty in Hi. }
    clearbody c us. clear -Hr Hk.
    induction Hr as [|u r us rs (_ & _ & _ & Hcid) _ IH]; [constructor|].
    constructor; [|exact IH].
    intros i Hi. rewrite Hcid in Hi. by apply (Hk _ _ Hi).
  - rewrite Hcn, <-member_objects_company_name with (team := team) (n := S n).
    done.
  - intros Hnd. change (companies d1.1) with (companies db) in Hc.
    rewrite <-Hc.
    by apply (insert_companies_nodup (nu_company <$> us) d1.1 ∅).
  - destruct (insert_companies_lookup (nu_company <$> us) d1.1 ∅)
      as [Hin Hsome].
    { intros o i Hi. by rewrite lookup_empty in Hi. }
    fold c in Hin, Hsome. rewrite Hc in Hin.
    change (companies d1.1) with (companies db) in Hin.
    clearbody c. clear -Hr Hin Hsome.
    assert (∀ u, u ∈ us → is_Some (c.2 !! nc_obj (nu_company u))) as Hus.
    { intros u Hu. apply Hsome. right.
      by apply list_elem_of_fmap_2, list_elem_of_fmap_2. }
    clear Hsome. clearbody us.
    induction Hr as [|u r us rs (_ & _ & _ & Hcid) _ IH]; [constructor|].
    constructor.
    + destruct (Hus u) as [i Hi]; [apply elem_of_cons; by left|].
      apply Hin in Hi as Hrow.
      apply list_elem_of_fmap in Hrow as (co & -> & Hco).
      apply Exists_exists. exists co. split; [done|]. by rewrite Hcid.
    + apply IH. intros u' Hu'. apply Hus. apply elem_of_cons. by right.
Qed.

(** C3: once a well-formed document [D] has been ingested and the
    session committed, [get_team_by_name] on [D]'s name returns a team
    whose members bear the names and e-mails of [D]'s entries, in the
    entries' order. *)
Theorem ingest_then_find_by_name D name fs n db :
  db_wf db →
  wf_document D = Some (name, fs) →
  ∃ s', add_post_json D (new_session n) = (Ok tt, s')
    ∧ ∃ t, t ∈ get_team_by_name (commit s' db) name
        ∧ (λ u, (user_name u, user_email u)) <$> members (commit s' db) t
          = (λ f, (VStr (f_name f), VStr (f_email f))) <$> fs.
Proof.
  intros (_ & _ & Hteams & _) Hwf.
  destruct (commit_add_post_json D name fs n db Hwf)
    as (s' & rows & crows & Hrun & Ht & Hu & _ & Hfields & Htid & _).
  exists s'. split; [exact Hrun|].
  set (tid := fresh_id (team_id <$> teams db)) in *.
  exists (mkTeam tid (VStr name)). split.
  - unfold get_team_by_name. rewrite Ht. apply list_elem_of_filter. split.
    + cbn. apply String.eqb_refl.
    + apply elem_of_app. right. by apply list_elem_of_singleton.
  - unfold members. rewrite Hu, filter_app. cbn [team_id].
    rewrite filter_none, filter_all; [done|exact Htid|].
    eapply Forall_impl; [exact Hteams|]. intros u Hex. cbn in Hex.
    apply Exists_exists in Hex as (t & Hin & ->). intros [= Heq].
    assert (team_id t < tid); [|lia].
    apply fresh_id_above. by apply list_elem_of_fmap_2.
Qed.

(** C2: in one call, the company built for an entry is staged exactly
    when it is unequal, by the objects' own equality, to every company
    built for an earlier entry; and no user of the call is given a
    company that was persisted before it. *)
Theorem company_staged_iff_unequal D name fs n :
  wf_document D = Some (name, fs) →
  ∃ s', add_post_json D (new_session n) = (Ok tt, s')
    ∧ length (nu_company <$> staged_users s') = length fs
    ∧ (∀ i c, (nu_company <$> staged_users s') !! i = Some c →
         (c ∈ staged_companies s'
          ↔ ∀ j c', (j < i)%nat →
              (nu_company <$> staged_users s') !! j = Some c' →
              company_eq c' c = false))
    ∧ (∀ db, ∃ rows,
         users (commit s' db) = users db ++ rows
         ∧ length rows = length fs
         ∧ ∀ r c, r ∈ rows → c ∈ companies db →
             user_company_id r ≠ Some (company_id c)).
Proof.
  intros Hwf.
  pose proof (add_post_json_wf D name fs (new_session n) Hwf) as H.
  cbv zeta in H. change (next_obj (new_session n)) with n in H.
  set (team := mkNewTeam n (VStr name)) in *.
  set (us := member_objects team (S n) fs) in *.
  destruct (staged_after team (nu_company <$> us) us (new_session n)
              (S n + 2 * length fs)) as (_ & H2 & H3).
  change (staged_companies (new_session n)) with (@nil NewCompany) in H2.
  change (staged_users (new_session n)) with (@nil NewUser) in H3.
  cbn [app] in H2, H3.
  eexists. split; [exact H|]. rewrite H2, H3.
  split; [|split].
  - unfold us. by rewrite length_fmap, member_objects_length.
  - intros i c Hi. split.
    + intros _ j c' Hlt Hj. unfold us in Hi, Hj.
      rewrite list_lookup_fmap, member_objects_lookup in Hi, Hj.
      destruct (fs !! i); [|done]. destruct (fs !! j); [|done].
      cbn in Hi, Hj. injection Hi as <-. injection Hj as <-.
      unfold company_eq. cbn. apply Nat.eqb_neq. lia.
    + intros _. by eapply list_elem_of_lookup_2.
  - intros db.
    destruct (commit_add_post_json D name fs n db Hwf)
      as (s' & rows & crows & Hrun & _ & Hu & _ & Hfields & _ & Hcid & _).
    rewrite H in Hrun. injection Hrun as <-.
    exists rows. split; [exact Hu|]. split.
    + apply (f_equal length) in Hfields. by rewrite !length_fmap in Hfields.
    + intros r c Hr Hc Heq.
      rewrite Forall_forall in Hcid. specialize (Hcid r Hr _ Heq).
      assert (company_id c < fresh_id (company_id <$> companies db)); [|lia].
      apply fresh_id_above. by apply list_elem_of_fmap_2.
Qed.

(** The data model's invariants hold at the start of day and survive
    every well-formed ingestion, so the stores assumed above are the
    stores the module reaches. *)
Lemma ingest_preserves_wf D name fs n db :
  db_wf db →
  wf_document D = Some (name, fs) →
  ∃ s', add_post_json D (new_session n) = (Ok tt, s')
        ∧ db_wf (commit s' db).
Proof.
  intros (Hnt & Hnc & Hut & Huc) Hwf.
  destruct (commit_add_post_json D name fs n db Hwf)
    as (s' & rows & crows & Hrun & Ht & Hu & Hc & _ & Htid & _ & _
        & Hnd & Hrows).
  exists s'. split; [exact Hrun|].
  unfold db_wf. rewrite Ht, Hu, Hc. split; [|split; [|split]].
  - rewrite fmap_app. apply NoDup_app.
    split; [done|]. split; [|apply NoDup_singleton].
    intros i Hi ->%list_elem_of_singleton. cbn in Hi.
    apply fresh_id_above in Hi. lia.
  - by apply Hnd.
  - apply Forall_app. split.
    + eapply Forall_impl; [exact Hut|]. intros u Hex. cbn in Hex.
      apply Exists_app. by left.
    + eapply Forall_impl; [exact Htid|]. intros r Hr. cbn in Hr.
      apply Exists_app. right. by constructor.
  - apply Forall_app. split; [|exact Hrows].
    eapply Forall_impl; [exact Huc|]. intros u Hex. cbn in Hex.
    apply Exists_app. by left.
Qed.

(** The scenario of section 8, on an empty schema. *)
Example scenario_company_query :
  let db := commit (snd (add_post_json nwa_document (new_session 0)))
                   empty_store in
  fst (get_team_by_company db "Ruthless_Records" [])
  = Ok [mkTeam 1 (VStr "NWA")]
  ∧ length (members db (mkTeam 1 (VStr "NWA"))) = 2%nat
  ∧ length (companies db) = 2%nat.
Proof. vm_compute. by repeat split. Qed.

Example dumps_numbers :
  dumps (λ s, s) (VList [VInt 0; VInt 12; VInt (-7); VNone; VBool true])
  = "[0,12,-7,null,true]"%string.
Proof. vm_compute. reflexivity. Qed.

(** ** The claims on the start-of-day data *)

Lemma test_data_wf : db_wf test_data.
Proof. apply (bool_decide_unpack _). vm_compute. exact I. Qed.

Lemma nwa_document_wf :
  wf_document nwa_document
  = Some ("NWA"%string,
          [mkFields "Ice Cube" "icecube@gmail.com" "Ruthless_Records";
           mkFields "MC Ren" "ren@hotmail.com" "Ruthless_Records"]).
Proof. vm_compute. reflexivity. Qed.

Lemma nwa_document_no_email_missing :
  missing_field nwa_document_no_email "email".
Proof.
  apply (missing_in_member _
           [member_entry "Ice Cube" "icecube@gmail.com" "Ruthless_Records"]
           [("name"%string, VStr "MC Ren");
            ("company"%string, VStr "Ruthless_Records")] []).
  - by eexists.
  - reflexivity.
  - constructor; [|constructor].
    eexists. split; [reflexivity|]. cbn. by repeat split; eexists.
  - reflexivity.
Qed.

Lemma get_team_by_company_exact_witness :
  db_wf test_data
  ∧ ∃ r log',
      get_team_by_company test_data "Ruthless_Records" [] = (Ok r, log')
      ∧ (∀ t, t ∈ r ↔ t ∈ teams test_data
                      ∧ has_member_of test_data "Ruthless_Records" t)
      ∧ NoDup r
      ∧ (no_user_of test_data "Ruthless_Records" → r = []).
Proof.
  split; [exact test_data_wf|].
  apply (get_team_by_company_exact test_data "Ruthless_Records" []).
  exact test_data_wf.
Defined.

Lemma get_team_by_company_sublist_witness :
  db_wf test_data
  ∧ ∃ r log',
      get_team_by_company test_data "Def_Jam_Records" [] = (Ok r, log')
      ∧ sublist r (get_all_teams test_data)
      ∧ r = filter (λ t, qualifies test_data "Def_Jam_Records" t = true)
                   (get_all_teams test_data)
      ∧ (∀ t, qualifies test_data "Def_Jam_Records" t = true
              ↔ has_member_of test_data "Def_Jam_Records" t).
Proof.
  split; [exact test_data_wf|].
  apply (get_team_by_company_sublist test_data "Def_Jam_Records" []).
  exact test_data_wf.
Defined.

Lemma get_team_by_company_scans_all_witness :
  db_wf test_data
  ∧ ∃ r log',
      get_team_by_company_short test_data "Ruthless_Records" []
      = (Ok r, log')
      ∧ get_team_by_company test_data "Ruthless_Records" []
        = (Ok r, [] ++ all_comparisons test_data (get_all_teams test_data)).
Proof.
  split; [exact test_data_wf|].
  apply (get_team_by_company_scans_all test_data "Ruthless_Records" []).
  exact test_data_wf.
Defined.

Lemma projection_wire_shapes_witness :
  db_wf test_data
  ∧ ∃ docs,
      teams_to_json (λ s, s) test_data (get_all_teams test_data) []
      = (Ok (VStr (dumps (λ s, s) (VList docs))), [] ++ [EvDumps])
      ∧ Forall2
          (λ t d, ∃ ms,
             d = VDict [("id"%string, VInt (team_id t));
                        ("name"%string, team_name t);
                        ("members"%string, VList ms)]
             ∧ Forall2
                 (λ u m, ∃ c, company test_data u = Some c ∧
                    m = VDict [("id"%string, VInt (user_id u));
                               ("name"%string, user_name u);
                               ("company"%string,
                                VDict [("name"%string, company_name c);
                                       ("id"%string, VInt (company_id c))]);
                               ("email"%string, user_email u)])
                 (members test_data t) ms)
          (get_all_teams test_data) docs.
Proof.
  split; [exact test_data_wf|].
  apply (projection_wire_shapes (λ s, s) test_data
           (get_all_teams test_data) []).
  exact test_data_wf.
Defined.

Lemma serialized_once_witness :
  db_wf test_data
  ∧ ∃ docs,
      mapM (project_team test_data) (get_all_teams test_data) = Some docs
      ∧ teams_to_json (λ s, s) test_data (get_all_teams test_data) []
        = (Ok (VStr (dumps (λ s, s) (VList docs))), [] ++ [EvDumps])
      ∧ Forall (λ d, ∃ t ms, d = team_document t ms
                  ∧ Forall (λ m, ∃ u c, m = user_document u c) ms) docs.
Proof.
  split; [exact test_data_wf|].
  apply (serialized_once (λ s, s) test_data (get_all_teams test_data) []).
  exact test_data_wf.
Defined.

Lemma get_team_by_name_exact_witness :
  get_team_by_name test_data "DoesNotExist" = []
  ∧ ∀ log, team_by_name (λ s, s) test_data "DoesNotExist" log
           = (Ok (VStr "[]"), log ++ [EvDumps]).
Proof.
  apply (get_team_by_name_exact (λ s, s) test_data "DoesNotExist").
  intros t Ht. vm_compute in Ht.
  apply elem_of_cons in Ht as [->|Ht]; [done|].
  apply elem_of_cons in Ht as [->|Ht]; [done|].
  by apply elem_of_nil in Ht.
Defined.

Lemma add_post_json_missing_field_witness :
  missing_field nwa_document_no_email "email"
  ∧ ∃ s',
      add_post_json nwa_document_no_email (new_session 0)
      = (Raise (KeyError "email"), s')
      ∧ staged s' = staged (new_session 0)
      ∧ ∀ db, commit s' db = commit (new_session 0) db.
Proof.
  split; [exact nwa_document_no_email_missing|].
  apply (add_post_json_missing_field nwa_document_no_email "email"
           (new_session 0)).
  exact nwa_document_no_email_missing.
Defined.

Lemma add_post_json_company_per_member_witness :
  wf_document nwa_document
  = Some ("NWA"%string,
          [mkFields "Ice Cube" "icecube@gmail.com" "Ruthless_Records";
           mkFields "MC Ren" "ren@hotmail.com" "Ruthless_Records"])
  ∧ ∃ s' cs,
      add_post_json nwa_document (new_session 0) = (Ok tt, s')
      ∧ staged_companies s' = staged_companies (new_session 0) ++ cs
      ∧ length cs = 2%nat
      ∧ nc_name <$> cs
        = [VStr "Ruthless_Records"; VStr "Ruthless_Records"]
      ∧ NoDup (nc_obj <$> cs).
Proof.
  split; [exact nwa_document_wf|].
  apply (add_post_json_company_per_member nwa_document "NWA"
           [mkFields "Ice Cube" "icecube@gmail.com" "Ruthless_Records";
            mkFields "MC Ren" "ren@hotmail.com" "Ruthless_Records"]
           (new_session 0)).
  exact nwa_document_wf.
Defined.

Lemma ingest_then_find_by_name_witness :
  db_wf test_data
  ∧ ∃ s',
      add_post_json nwa_document (new_session 0) = (Ok tt, s')
      ∧ ∃ t, t ∈ get_team_by_name (commit s' test_data) "NWA"
          ∧ (λ u, (user_name u, user_email u))
              <$> members (commit s' test_data) t
            = [(VStr "Ice Cube", VStr "icecube@gmail.com");
               (VStr "MC Ren", VStr "ren@hotmail.com")].
Proof.
  split; [exact test_data_wf|].
  apply (ingest_then_find_by_name nwa_document "NWA"
           [mkFields "Ice Cube" "icecube@gmail.com" "Ruthless_Records";
            mkFields "MC Ren" "ren@hotmail.com" "Ruthless_Records"]
           0%nat test_data).
  - exact test_data_wf.
  - exact nwa_document_wf.
Defined.

Lemma company_staged_iff_unequal_witness :
  ∃ s',
    add_post_json nwa_document (new_session 0) = (Ok tt, s')
    ∧ length (nu_company <$> staged_users s') = 2%nat
    ∧ (∀ i c, (nu_company <$> staged_users s') !! i = Some c →
         (c ∈ staged_companies s'
          ↔ ∀ j c', (j < i)%nat →
              (nu_company <$> staged_users s') !! j = Some c' →
              company_eq c' c = false))
    ∧ (∀ db, ∃ rows,
         users (commit s' db) = users db ++ rows
         ∧ length rows = 2%nat
         ∧ ∀ r c, r ∈ rows → c ∈ companies db →
             user_company_id r ≠ Some (company_id c)).
Proof.
  apply (company_staged_iff_unequal nwa_document "NWA"
           [mkFields "Ice Cube" "icecube@gmail.com" "Ruthless_Records";
            mkFields "MC Ren" "ren@hotmail.com" "Ruthless_Records"]
           0%nat).
  exact nwa_document_wf.
Defined.

(** * Further properties of the module *)

(** ** What [add_post_json] accepts *)

Lemma getitem_ok v k x :
  getitem v k = Ok x → ∃ d, v = VDict d ∧ dict_get k d = Some x.
Proof.
  unfold getitem. destruct v as [| | | | |d]; try done.
  destruct (dict_get k d) as [y|] eqn:Hk; [|done].
  intros [= <-]. by exists d.
Qed.

Lemma add_member_ok_complete team cu m s cu' s' :
  add_member team cu m s = (Ok cu', s') → complete_member m.
Proof.
  unfold add_member, bind, lift, ret, Company_new, User_new, new_obj.
  destruct (getitem m "company") as [c|] eqn:Hc; [|done].
  destruct (getitem m "name") as [n|] eqn:Hn; [|done].
  destruct (getitem m "email") as [e|] eqn:He; [|done].
  intros _.
  apply getitem_ok in Hc as (d & -> & Hc).
  apply getitem_ok in Hn as (d' & [= <-] & Hn).
  apply getitem_ok in He as (d' & [= <-] & He).
  exists d. by rewrite Hc, Hn, He.
Qed.

Lemma add_members_ok_complete team items cu s cu' s' :
  for_each items (add_member team) cu s = (Ok cu', s') →
  Forall complete_member items.
Proof.
  revert cu s. induction items as [|m items IH]; intros cu s; [done|].
  cbn [for_each]. unfold bind.
  destruct (add_member team cu m s) as [[cu1|e] s1] eqn:Hm; [|done].
  intros Hrest. constructor.
  - by eapply add_member_ok_complete.
  - by eapply IH.
Qed.

Lemma add_post_json_accepted D s :
  accepted D → ∃ s', add_post_json D s = (Ok tt, s').
Proof.
  intros (d & name & ms & items & -> & Hn & Hms & Hit & Hall).
  unfold add_post_json, getitem. rewrite Hn, Hms.
  unfold Team_new, new_obj, bind, lift, ret. rewrite Hit.
  cbn -[for_each session_add_all session_add add_member].
  set (team := mkNewTeam (next_obj s) name).
  set (s1 := mkSession (S (next_obj s)) (staged s)).
  destruct (add_members_complete team items ([], []) s1 Hall)
    as (cu & s2 & ->).
  unfold session_add at 1. rewrite !session_add_all_run. by eexists.
Qed.

Lemma add_post_json_ok_accepted D s s' :
  add_post_json D s = (Ok tt, s') → accepted D.
Proof.
  unfold add_post_json, Team_new, new_obj, bind, lift, ret.
  destruct (getitem D "name") as [name|] eqn:Hn; [|done].
  cbn -[for_each session_add_all session_add add_member getitem iter].
  destruct (getitem D "members") as [ms|] eqn:Hms; [|done].
  destruct (iter ms) as [items|] eqn:Hit; [|done].
  destruct (for_each items _ _ _) as [[cu|e] s2] eqn:Hloop; [|done].
  intros _.
  apply getitem_ok in Hn as (d & -> & Hn).
  apply getitem_ok in Hms as (d' & [= <-] & Hms).
  exists d, name, ms, items. repeat split; try done.
  by eapply add_members_ok_complete.
Qed.

(** X1: The route [/add/team] answers ['Added Team'] for exactly the
    documents that have every expected key, whatever the values under
    the keys are; for every other document it raises. *)
Theorem add_team_accepts_iff D s :
  (accepted D ↔ ∃ s', add_team D s = (Ok (VStr "Added Team"), s'))
  ∧ (¬ accepted D ↔ ∃ e s', add_team D s = (Raise e, s')).
Proof.
  assert (accepted D ↔ ∃ s', add_team D s = (Ok (VStr "Added Team"), s'))
    as Hok.
  { unfold add_team, bind, ret. split.
    - intros Hacc. destruct (add_post_json_accepted D s Hacc) as [s' ->].
      by eexists.
    - intros [s' H].
      destruct (add_post_json D s) as [[[]|e] s1] eqn:Hrun; [|done].
      by eapply add_post_json_ok_accepted. }
  split; [exact Hok|]. split.
  - intros Hnot. unfold add_team, bind, ret.
    destruct (add_post_json D s) as [[[]|e] s1] eqn:Hrun; [|by eexists _, _].
    destruct Hnot. by eapply add_post_json_ok_accepted.
  - intros (e & s' & Hraise) Hacc. apply Hok in Hacc as [s1 Hs1].
    rewrite Hs1 in Hraise. done.
Qed.

(** X2: Whatever exception [/add/team] ends in, nothing has been staged,
    and a commit of the session persists nothing of the document. *)
Theorem add_team_failure_stages_nothing D s e s' :
  add_team D s = (Raise e, s') →
  staged s' = staged s ∧ ∀ db, commit s' db = commit s db.
Proof.
  unfold add_team, bind, ret.
  destruct (add_post_json D s) as [[[]|e1] s1] eqn:Hrun; [done|].
  intros [= <- <-].
  pose proof (add_post_json_raises D s _ _ Hrun) as Hst.
  split; [exact Hst|]. intros db.
  unfold commit, staged_teams, staged_companies, staged_users.
  by rewrite Hst.
Qed.


(** ** Ingestion, seen from the store *)

Lemma find_by_key {A} (f : A → Z) (l : list A) (x : A) :
  NoDup (f <$> l) → x ∈ l →
  snd <$> list_find (λ y, f y = f x) l = Some x.
Proof.
  intros Hnd Hx.
  destruct (list_find_elem_of (λ y, f y = f x) l x Hx eq_refl) as [[i y] Hf].
  rewrite Hf. cbn. f_equal.
  apply list_find_Some in Hf as (Hi & Hy & _).
  apply list_elem_of_lookup_1 in Hx as [j Hj].
  assert (i = j) as ->; [|congruence].
  apply (NoDup_lookup (f <$> l) i j (f x)); [done| |].
  - by rewrite list_lookup_fmap, Hi, <-Hy.
  - by rewrite list_lookup_fmap, Hj.
Qed.


Lemma member_objects_entries team n fs :
  Forall2 (λ f u,
      nu_name u = VStr (f_name f) ∧ nu_email u = VStr (f_email f)
      ∧ nc_name (nu_company u) = VStr (f_company f)
      ∧ nu_team u = team) fs (member_objects team n fs).
Proof.
  revert n. induction fs as [|f fs IH]; intros n; cbn; constructor;
    [done|apply IH].
Qed.

(** With distinct objects, each one's key is the key of the row made
    for it. *)
Lemma insert_companies_rows cs d pk :
  NoDup (nc_obj <$> cs) →
  let r := foldl insert_company (d, pk) cs in
  (∀ o, o ∉ nc_obj <$> cs → r.2 !! o = pk !! o)
  ∧ ∃ rows, companies r.1 = companies d ++ rows
      ∧ Forall2 (λ c row, company_name row = nc_name c
                          ∧ r.2 !! nc_obj c = Some (company_id row))
                cs rows.
Proof.
  revert d pk. induction cs as [|c cs IH]; intros d pk Hnd; cbn.
  - split; [done|]. exists []. by rewrite app_nil_r.
  - rewrite fmap_cons in Hnd. apply NoDup_cons in Hnd as [Hc Hnd].
    destruct (IH (insert_company (d, pk) c).1 (insert_company (d, pk) c).2 Hnd)
      as (Hother & rows & Hrows & Hall).
    rewrite <-surjective_pairing in Hother, Hrows, Hall.
    split.
    + intros o Ho. rewrite Hother.
      * cbn. apply lookup_insert_ne. intros <-. apply Ho, elem_of_cons.
        by left.
      * intros Ho'. apply Ho, elem_of_cons. by right.
    + eexists (_ :: rows). rewrite Hrows. cbn. rewrite <-app_assoc.
      split; [done|]. constructor; [|exact Hall].
      split; [done|]. rewrite Hother by done. cbn.
      apply lookup_insert_eq.
Qed.

(** The store after a commit, as the three insertions. *)
Lemma commit_add_post_json_eq D name fs n db :
  wf_document D = Some (name, fs) →
  let team := mkNewTeam n (VStr name) in
  let us := member_objects team (S n) fs in
  let d1 := insert_team (db, ∅) team in
  let c := foldl insert_company (d1.1, ∅) (nu_company <$> us) in
  ∃ s', add_post_json D (new_session n) = (Ok tt, s')
        ∧ commit s' db = foldl (insert_user d1.2 c.2) c.1 us.
Proof.
  intros Hwf team us d1 c.
  pose proof (add_post_json_wf D name fs (new_session n) Hwf) as H.
  cbv zeta in H. change (next_obj (new_session n)) with n in H.
  fold team in H. fold us in H.
  destruct (staged_after team (nu_company <$> us) us (new_session n)
              (S n + 2 * length fs)) as (H1 & H2 & H3).
  change (staged_teams (new_session n)) with (@nil NewTeam) in H1.
  change (staged_companies (new_session n)) with (@nil NewCompany) in H2.
  change (staged_users (new_session n)) with (@nil NewUser) in H3.
  cbn [app] in H1, H2, H3.
  eexists. split; [exact H|].
  unfold commit. by rewrite H1, H2, H3.
Qed.

(** The rows of the new team are the rows of the document's entries,
    each with the company row made for its entry. *)
Lemma ingest_links D name fs n db :
  db_wf db →
  wf_document D = Some (name, fs) →
  ∃ s' rows,
    add_post_json D (new_session n) = (Ok tt, s')
    ∧ db_wf (commit s' db)
    ∧ new_team_row db name ∈ teams (commit s' db)
    ∧ members (commit s' db) (new_team_row db name) = rows
    ∧ Forall2 (λ f r,
        user_name r = VStr (f_name f) ∧ user_email r = VStr (f_email f)
        ∧ ∃ co, company (commit s' db) r = Some co
                ∧ company_name co = VStr (f_company f)) fs rows.
Proof.
  intros Hdb Hwf.
  destruct (ingest_preserves_wf D name fs n db Hdb Hwf) as (s' & Hrun & Hwf').
  destruct (commit_add_post_json D name fs n db Hwf)
    as (s1 & rows & crows & Hrun1 & Ht & Hu & Hc & _ & Htid & _).
  rewrite Hrun in Hrun1. injection Hrun1 as <-.
  destruct (commit_add_post_json_eq D name fs n db Hwf) as (s1 & Hrun1 & Heq).
  rewrite Hrun in Hrun1. injection Hrun1 as <-.
  exists s', rows. split; [exact Hrun|]. split; [exact Hwf'|].
  split; [|split].
  - rewrite Ht. apply elem_of_app. right. by apply list_elem_of_singleton.
  - destruct Hdb as (_ & _ & Hteams & _).
    unfold members. rewrite Hu, filter_app. cbn [team_id new_team_row].
    rewrite filter_none, filter_all; [done|exact Htid|].
    eapply Forall_impl; [exact Hteams|]. intros u Hex. cbn in Hex.
    apply Exists_exists in Hex as (t & Hin & ->). intros [= Heq'].
    assert (team_id t < fresh_id (team_id <$> teams db)); [|lia].
    apply fresh_id_above. by apply list_elem_of_fmap_2.
  - set (team := mkNewTeam n (VStr name)) in *.
    set (us := member_objects team (S n) fs) in *.
    set (d1 := insert_team (db, ∅) team) in *.
    destruct (insert_companies_rows (nu_company <$> us) d1.1 ∅
                (member_objects_distinct team (S n) fs))
      as (_ & crows' & Hc' & Hlink).
    set (c := foldl insert_company (d1.1, ∅) (nu_company <$> us)) in *.
    destruct (insert_users_run d1.2 c.2 us c.1)
      as (_ & Hcomp & rows' & Hu' & Hr).
    rewrite <-Heq in Hcomp, Hu'.
    destruct (insert_companies_run (nu_company <$> us) d1.1 ∅)
      as (_ & Hu1 & _).
    fold c in Hu1. change (users d1.1) with (users db) in Hu1.
    rewrite Hu1, Hu in Hu'. apply app_inv_head in Hu' as <-.
    change (companies d1.1) with (companies db) in Hc'.
    rewrite Hc' in Hcomp.
    assert (NoDup (company_id <$> companies (commit s' db))) as Hnd
      by (by destruct Hwf' as (_ & ? & _)).
    pose proof (member_objects_entries team (S n) fs) as Hfs. fold us in Hfs.
    clearbody c us. clear -Hfs Hr Hlink Hcomp Hnd.
    assert (∀ co, co ∈ crows' → co ∈ companies (commit s' db)) as Hin.
    { intros co Hco. rewrite Hcomp. apply elem_of_app. by right. }
    clear Hcomp. revert rows crows' Hr Hlink Hin.
    induction Hfs as [|f u fs us (Hn & He & Hcn & _) _ IH];
      intros rows crows' Hr Hlink Hin.
    + inversion Hr. constructor.
    + inversion Hr as [|? r ? rows' (Hrn & Hre & _ & Hrc) Hr']; subst.
      rewrite fmap_cons in Hlink.
      inversion Hlink as [|? co ? crows'' (Hcon & Hpk) Hlink']; subst.
      constructor.
      * rewrite Hrn, Hre. split; [done|]. split; [done|].
        exists co. split; [|by rewrite Hcon].
        unfold company. rewrite Hrc, Hpk.
        apply find_by_key; [done|]. apply Hin, elem_of_cons. by left.
      * eapply IH; [done|done|].
        intros co' Hco'. apply Hin, elem_of_cons. by right.
Qed.

(** X4: Every ingestion adds one team to what [get_team_by_name] returns
    for the document's name, after the teams that bore the name
    already, and changes the result for no other name. *)
Theorem ingest_adds_one_team_by_name D name fs n db n' :
  wf_document D = Some (name, fs) →
  ∃ s', add_post_json D (new_session n) = (Ok tt, s')
    ∧ get_team_by_name (commit s' db) n'
      = get_team_by_name db n'
        ++ (if String.eqb name n' then [new_team_row db name] else []).
Proof.
  intros Hwf.
  destruct (commit_add_post_json D name fs n db Hwf)
    as (s' & rows & crows & Hrun & Ht & _).
  exists s'. split; [exact Hrun|].
  unfold get_team_by_name. rewrite Ht, filter_app. f_equal.
  rewrite filter_cons, filter_nil. cbn.
  destruct (String.eqb name n') eqn:Heq.
  - by rewrite decide_True.
  - by rewrite decide_False.
Qed.

(** X5: An ingestion only appends: the rows persisted before stay where
    they were, and every team persisted before keeps its members and
    its projection. *)
Theorem ingest_keeps_existing_teams D name fs n db :
  db_wf db →
  wf_document D = Some (name, fs) →
  ∃ s', add_post_json D (new_session n) = (Ok tt, s')
    ∧ teams db `prefix_of` teams (commit s' db)
    ∧ users db `prefix_of` users (commit s' db)
    ∧ companies db `prefix_of` companies (commit s' db)
    ∧ ∀ t, t ∈ teams db →
        members (commit s' db) t = members db t
        ∧ project_team (commit s' db) t = project_team db t.
Proof.
  intros Hdb Hwf.
  destruct (commit_add_post_json D name fs n db Hwf)
    as (s' & rows & crows & Hrun & Ht & Hu & Hc & _ & Htid & _).
  exists s'. split; [exact Hrun|].
  split; [rewrite Ht; by eexists|].
  split; [rewrite Hu; by eexists|].
  split; [rewrite Hc; by eexists|].
  intros t Hin.
  assert (members (commit s' db) t = members db t) as Hm.
  { unfold members. rewrite Hu, filter_app, (filter_none _ rows).
    - by rewrite app_nil_r.
    - eapply Forall_impl; [exact Htid|]. intros r -> [= Heq].
      assert (team_id t < fresh_id (team_id <$> teams db)); [|lia].
      apply fresh_id_above. by apply list_elem_of_fmap_2. }
  split; [exact Hm|].
  unfold project_team. rewrite Hm. f_equal.
  apply Forall2_mapM_ext, Forall_Forall2_diag, Forall_forall.
  intros u Hu'. apply list_elem_of_filter in Hu' as [_ Hu'].
  unfold project_user. f_equal.
  destruct Hdb as (_ & _ & _ & Hcomp). rewrite Forall_forall in Hcomp.
  specialize (Hcomp u Hu'). apply Exists_exists in Hcomp as (co & Hco & Hid).
  unfold company. rewrite Hid, Hc.
  destruct (list_find_elem_of (λ c, company_id c = company_id co)
              (companies db) co Hco eq_refl) as [[i co'] Hf].
  by rewrite (list_find_app_l _ _ _ _ _ Hf), Hf.
Qed.

(** X6: After an ingestion, [get_team_by_company c] returns the new team
    exactly when an entry of the document names the company [c]; a
    document without entries gives a team that no company finds. *)
Theorem ingest_then_find_by_company D name fs n db c log :
  db_wf db →
  wf_document D = Some (name, fs) →
  ∃ s' r log',
    add_post_json D (new_session n) = (Ok tt, s')
    ∧ get_team_by_company (commit s' db) c log = (Ok r, log')
    ∧ (new_team_row db name ∈ r ↔ ∃ f, f ∈ fs ∧ f_company f = c).
Proof.
  intros Hdb Hwf.
  destruct (ingest_links D name fs n db Hdb Hwf)
    as (s' & rows & Hrun & Hwf' & Hin & Hm & Hrows).
  eexists s', _, _. split; [exact Hrun|].
  split; [by apply get_team_by_company_run|].
  rewrite list_elem_of_filter, qualifies_has_member.
  unfold has_member_of. rewrite Hm. split.
  - intros [(m & co & Hmem & Hco & Hname) _].
    apply list_elem_of_lookup_1 in Hmem as [i Hi].
    destruct (Forall2_lookup_r _ _ _ _ _ Hrows Hi)
      as (f & Hf & _ & _ & co' & Hco' & Hname').
    exists f. split; [by eapply list_elem_of_lookup_2|].
    rewrite Hco in Hco'. injection Hco' as <-.
    rewrite Hname in Hname'. by injection Hname' as <-.
  - intros (f & Hf & <-). split; [|exact Hin].
    apply list_elem_of_lookup_1 in Hf as [i Hi].
    destruct (Forall2_lookup_l _ _ _ _ _ Hrows Hi)
      as (r & Hr & _ & _ & co & Hco & Hname).
    exists r, co. split; [by eapply list_elem_of_lookup_2|done].
Qed.

Section RoundTrip.

Variable escape : string → string.


End RoundTrip.

(** ** Members without a company *)

(** A loop that appends [f x] for each item and raises [e] where [f]
    has no value is [mapM f]. *)
Lemma for_each_mapM {S A B} (xs : list A) (body : list B → A → M S (list B))
    (f : A → option B) (e : exn) acc s :
  (∀ acc x s, body acc x s
              = (match f x with
                 | Some y => Ok (acc ++ [y])
                 | None => Raise e
                 end, s)) →
  for_each xs body acc s
  = (match mapM f xs with
     | Some ys => Ok (acc ++ ys)
     | None => Raise e
     end, s).
Proof.
  intros Hbody. revert acc. induction xs as [|x xs IH]; intros acc.
  - cbn. unfold ret. by rewrite app_nil_r.
  - cbn [for_each]. unfold bind. rewrite Hbody.
    change (mapM f (x :: xs))
      with (y ← f x; k ← mapM f xs; Some (y :: k)).
    destruct (f x) as [y|]; [|done]. rewrite IH. cbn.
    destruct (mapM f xs); cbn; [|done]. by rewrite <-app_assoc.
Qed.

Lemma members_company_dec db (ms : list User) :
  {Forall (λ m, is_Some (company db m)) ms}
  + {Exists (λ m, company db m = None) ms}.
Proof.
  apply Forall_Exists_dec. intros m.
  destruct (company db m); [left; by eexists|by right].
Qed.

Lemma orphan_member_dec db ts :
  {Forall (λ t, Forall (λ m, is_Some (company db m)) (members db t)) ts}
  + {orphan_member db ts}.
Proof. apply Forall_Exists_dec. intros t. apply members_company_dec. Qed.

Lemma orphan_member_not_all db ts :
  orphan_member db ts →
  ¬ Forall (λ t, Forall (λ m, is_Some (company db m)) (members db t)) ts.
Proof.
  intros Hex Hall. apply Exists_exists in Hex as (t & Ht & Hex).
  apply Exists_exists in Hex as (m & Hm & Hnone).
  rewrite Forall_forall in Hall. specialize (Hall t Ht).
  rewrite Forall_forall in Hall. destruct (Hall m Hm) as [co Hco].
  congruence.
Qed.

Lemma Exists_equiv {A} (P Q : A → Prop) (l : list A) :
  (∀ x, P x ↔ Q x) → Exists P l ↔ Exists Q l.
Proof.
  intros H. split; intros Hex; eapply Exists_impl; try exact Hex;
    intros x; apply H.
Qed.

Lemma project_user_None db us :
  mapM (project_user db) us = None ↔ Exists (λ m, company db m = None) us.
Proof.
  rewrite mapM_None. apply Exists_equiv. intros u. unfold project_user.
  by destruct (company db u).
Qed.

Lemma project_team_None db ts :
  mapM (project_team db) ts = None ↔ orphan_member db ts.
Proof.
  rewrite mapM_None. apply Exists_equiv. intros t. unfold project_team.
  rewrite <-project_user_None.
  by destruct (mapM (project_user db) (members db t)).
Qed.

Section Orphans.

Variable escape : string → string.

Lemma users_to_json_total db us dump log :
  users_to_json escape db us dump log
  = match mapM (project_user db) us with
    | Some docs =>
        if dump
        then (Ok (VStr (dumps escape (VList docs))), log ++ [EvDumps])
        else (Ok (VList docs), log)
    | None => (Raise AttributeError, log)
    end.
Proof.
  unfold users_to_json. unfold bind at 1.
  rewrite (for_each_mapM us _ (project_user db) AttributeError).
  - cbn [app]. destruct (mapM (project_user db) us); [|done].
    by destruct dump.
  - intros acc u s. unfold project_user, bind, company_to_json.
    by destruct (company db u).
Qed.

Lemma teams_to_json_total db ts log :
  teams_to_json escape db ts log
  = match mapM (project_team db) ts with
    | Some docs =>
        (Ok (VStr (dumps escape (VList docs))), log ++ [EvDumps])
    | None => (Raise AttributeError, log)
    end.
Proof.
  unfold teams_to_json. unfold bind at 1.
  rewrite (for_each_mapM ts _ (project_team db) AttributeError).
  - cbn [app]. by destruct (mapM (project_team db) ts).
  - intros acc t s. unfold bind. rewrite users_to_json_total.
    unfold project_team.
    by destruct (mapM (project_user db) (members db t)).
Qed.

(** X8: [teams_to_json] raises [AttributeError] exactly when a member of
    one of the teams has no company, and then [json.dumps] has not been
    called; otherwise it serializes the projections of the teams. *)
Theorem teams_to_json_orphan db ts log :
  (orphan_member db ts
   ↔ teams_to_json escape db ts log = (Raise AttributeError, log))
  ∧ (¬ orphan_member db ts
     ↔ ∃ docs, mapM (project_team db) ts = Some docs
         ∧ teams_to_json escape db ts log
           = (Ok (VStr (dumps escape (VList docs))), log ++ [EvDumps])).
Proof.
  rewrite teams_to_json_total, <-project_team_None.
  destruct (mapM (project_team db) ts) as [docs|].
  - split; [by split|]. split; [intros _; by exists docs|done].
  - split; [done|]. split; [by intros []|by intros (docs & ? & _)].
Qed.

End Orphans.

Lemma scan_members_orphan db c team ms acc log :
  Exists (λ m, company db m = None) ms →
  fst (for_each ms (λ filtered_teams member,
      let* n := member_company_name db member in
      do* emit (EvNameCmp (user_id member)) in
      if str_eq n c && negb (team_in team filtered_teams)
      then ret (filtered_teams ++ [team])
      else ret filtered_teams) acc log)
  = Raise AttributeError.
Proof.
  revert acc log. induction ms as [|m ms IH]; intros acc log Hex.
  - by apply Exists_nil in Hex.
  - cbn [for_each]. unfold bind at 1. unfold member_company_name at 1.
    destruct (company db m) as [co|] eqn:Hco; [|done].
    apply Exists_cons in Hex as [Hex|Hex]; [congruence|].
    unfold bind at 1 2, ret at 1, emit at 1.
    by destruct (str_eq (company_name co) c && negb (team_in team acc));
      apply IH.
Qed.

Lemma scan_teams_orphan db c ts acc log :
  orphan_member db ts →
  fst (for_each ts (λ filtered_teams team,
    for_each (members db team) (λ filtered_teams member,
      let* n := member_company_name db member in
      do* emit (EvNameCmp (user_id member)) in
      if str_eq n c && negb (team_in team filtered_teams)
      then ret (filtered_teams ++ [team])
      else ret filtered_teams) filtered_teams) acc log)
  = Raise AttributeError.
Proof.
  revert acc log. induction ts as [|t ts IH]; intros acc log Hex.
  - by apply Exists_nil in Hex.
  - cbn [for_each]. unfold bind at 1.
    destruct (members_company_dec db (members db t)) as [Hall|Hbad].
    + rewrite scan_members by done.
      apply Exists_cons in Hex as [Hex|Hex]; [|by apply IH].
      destruct (orphan_member_not_all db [t]); by repeat constructor.
    + pose proof (scan_members_orphan db c t _ acc log Hbad) as Hr.
      destruct (for_each (members db t) _ acc log) as [[r|e] l]; [done|].
      cbn in Hr. by injection Hr as ->.
Qed.

Lemma scan_teams_all db c ts acc log :
  Forall (λ t, Forall (λ m, is_Some (company db m)) (members db t)) ts →
  ∃ r log',
    for_each ts (λ filtered_teams team,
      for_each (members db team) (λ filtered_teams member,
        let* n := member_company_name db member in
        do* emit (EvNameCmp (user_id member)) in
        if str_eq n c && negb (team_in team filtered_teams)
        then ret (filtered_teams ++ [team])
        else ret filtered_teams) filtered_teams) acc log
    = (Ok r, log').
Proof.
  intros Hall. eexists _, _.
  apply (for_each_fold ts _
           (λ ft t, if team_in t ft then ft
                    else if qualifies db c t then ft ++ [t] else ft)
           (λ l t, l ++ ((λ m, EvNameCmp (user_id m)) <$> members db t))).
  intros t Ht ft l. rewrite Forall_forall in Hall.
  by rewrite scan_members by by apply Hall.
Qed.

(** X9: [get_team_by_company] raises [AttributeError] exactly when some
    member of some persisted team has no company, whichever company is
    asked for and whether or not that member's team matters to the
    answer; otherwise it returns. *)
Theorem get_team_by_company_orphan db c log :
  (orphan_member db (get_all_teams db)
   ↔ fst (get_team_by_company db c log) = Raise AttributeError)
  ∧ (¬ orphan_member db (get_all_teams db)
     ↔ ∃ r, fst (get_team_by_company db c log) = Ok r).
Proof.
  unfold get_team_by_company.
  destruct (orphan_member_dec db (get_all_teams db)) as [Hall|Hbad].
  - destruct (scan_teams_all db c (get_all_teams db) [] log Hall)
      as (r & log' & ->).
    pose proof (orphan_member_not_all db (get_all_teams db)) as Hnot.
    split; split; try done.
    + intros Hbad. by destruct (Hnot Hbad).
    + intros _. by exists r.
    + intros _ Hbad. by destruct (Hnot Hbad).
  - rewrite scan_teams_orphan by done.
    split; split; try done. by intros [r ?].
Qed.

(** ** The routes *)


Section RouteProperties.

Variable escape : string → string.

(** X10: [/company/<c>] for a company that no persisted user has answers
    the text of the empty array, after having compared every member of
    every team. *)
Theorem teams_by_company_unknown db c log :
  db_wf db →
  no_user_of db c →
  teams_by_company escape db c log
  = (Ok (VStr "[]"),
     log ++ all_comparisons db (get_all_teams db) ++ [EvDumps]).
Proof.
  intros Hwf Hno. unfold teams_by_company, bind.
  rewrite get_team_by_company_run by done.
  rewrite filter_none.
  - cbn. by rewrite <-app_assoc.
  - apply Forall_forall. intros t _.
    by rewrite no_user_of_not_qualifies.
Qed.


End RouteProperties.

(** ** The stores the module builds *)


Section Reachable.

Variable escape : string → string.


End Reachable.

(** ** The further properties on concrete inputs *)

Example add_team_untyped_document :
  fst (add_team untyped_document (new_session 0)) = Ok (VStr "Added Team")
  ∧ fst (add_team (VDict [("name"%string, VStr "NWA");
                           ("members"%string, VStr EmptyString)])
                  (new_session 0)) = Ok (VStr "Added Team")
  ∧ fst (add_team (VDict [("name"%string, VStr "NWA");
                           ("members"%string, VStr "ab")])
                  (new_session 0)) = Raise TypeError.
Proof. vm_compute. by repeat split. Qed.

Example orphan_store_raises :
  get_team_by_company orphan_store "Def_Jam_Records" []
  = (Raise AttributeError, [EvNameCmp 1; EvNameCmp 2])
  ∧ teams_to_json (λ s, s) orphan_store (get_all_teams orphan_store) []
    = (Raise AttributeError, []).
Proof. vm_compute. by split. Qed.

Lemma test_data_no_such_company : no_user_of test_data "DoesNotExist".
Proof.
  intros u co Hu Hco Hname. rewrite test_data_rows in Hu.
  cbn [users] in Hu.
  repeat (apply elem_of_cons in Hu as [->|Hu];
          [vm_compute in Hco; injection Hco as <-; discriminate Hname|]).
  by apply elem_of_nil in Hu.
Qed.

Lemma add_team_failure_stages_nothing_witness :
  add_team VNone (new_session 0) = (Raise TypeError, new_session 0)
  ∧ staged (new_session 0) = staged (new_session 0)
  ∧ ∀ db, commit (new_session 0) db = commit (new_session 0) db.
Proof.
  split; [reflexivity|].
  apply (add_team_failure_stages_nothing VNone (new_session 0) TypeError
           (new_session 0)).
  reflexivity.
Defined.


Lemma ingest_adds_one_team_by_name_witness :
  ∃ s', add_post_json nwa_document (new_session 0) = (Ok tt, s')
    ∧ get_team_by_name (commit s' test_data) "NWA"
      = get_team_by_name test_data "NWA"
        ++ (if String.eqb "NWA" "NWA"
            then [new_team_row test_data "NWA"] else []).
Proof.
  apply (ingest_adds_one_team_by_name nwa_document "NWA"
           [mkFields "Ice Cube" "icecube@gmail.com" "Ruthless_Records";
            mkFields "MC Ren" "ren@hotmail.com" "Ruthless_Records"]
           0%nat test_data "NWA").
  exact nwa_document_wf.
Defined.

Lemma ingest_keeps_existing_teams_witness :
  db_wf test_data
  ∧ ∃ s', add_post_json nwa_document (new_session 0) = (Ok tt, s')
    ∧ teams test_data `prefix_of` teams (commit s' test_data)
    ∧ users test_data `prefix_of` users (commit s' test_data)
    ∧ companies test_data `prefix_of` companies (commit s' test_data)
    ∧ ∀ t, t ∈ teams test_data →
        members (commit s' test_data) t = members test_data t
        ∧ project_team (commit s' test_data) t = project_team test_data t.
Proof.
  split; [exact test_data_wf|].
  apply (ingest_keeps_existing_teams nwa_document "NWA"
           [mkFields "Ice Cube" "icecube@gmail.com" "Ruthless_Records";
            mkFields "MC Ren" "ren@hotmail.com" "Ruthless_Records"]
           0%nat test_data).
  - exact test_data_wf.
  - exact nwa_document_wf.
Defined.

Lemma ingest_then_find_by_company_witness :
  db_wf test_data
  ∧ ∃ s' r log',
      add_post_json nwa_document (new_session 0) = (Ok tt, s')
      ∧ get_team_by_company (commit s' test_data) "Ruthless_Records" []
        = (Ok r, log')
      ∧ (new_team_row test_data "NWA" ∈ r
         ↔ ∃ f, f ∈ [mkFields "Ice Cube" "icecube@gmail.com"
                              "Ruthless_Records";
                     mkFields "MC Ren" "ren@hotmail.com" "Ruthless_Records"]
                ∧ f_company f = "Ruthless_Records"%string).
Proof.
  split; [exact test_data_wf|].
  apply (ingest_then_find_by_company nwa_document "NWA" _ 0%nat test_data
           "Ruthless_Records" []).
  - exact test_data_wf.
  - exact nwa_document_wf.
Defined.


Lemma teams_by_company_unknown_witness :
  db_wf test_data ∧ no_user_of test_data "DoesNotExist"
  ∧ teams_by_company (λ s, s) test_data "DoesNotExist" []
    = (Ok (VStr "[]"),
       [] ++ all_comparisons test_data (get_all_teams test_data)
          ++ [EvDumps]).
Proof.
  split; [exact test_data_wf|]. split; [exact test_data_no_such_company|].
  apply (teams_by_company_unknown (λ s, s) test_data "DoesNotExist" []).
  - exact test_data_wf.
  - exact test_data_no_such_company.
Defined.


